(** * Wasti Studio / Nano Banana Studio: viewport, ingestion, history and
      generation-client properties

    A shallow embedding of the logic-bearing parts of the image generator
    front end:

    - [ZoomableImage]   : components/ZoomableImage.tsx (pan/zoom viewport)
    - [DragDropZone]    : components/DragDropZone.tsx (file ingestion)
    - [Gemini]          : services/gemini.ts (the generation client wrapper,
                          in its two revisions)
    - [App]             : App.tsx (submit, history, restore; two revisions)

    JavaScript numbers are modelled by exact rationals.  Where binary64
    rounds a sum the rationals do not, so the viewport properties are
    stated on what both agree on: bounds, clamps, direction and the
    equality tests the handlers perform, and exact values only where
    binary64 is exact too (scales that are whole half steps, integer
    pointer coordinates).  React state is an explicit
    record and every handler is a function from the committed state to the
    next one: the handlers are run by the event loop one at a time, each on
    the state committed by the previous one. *)

From Stdlib Require Import QArith Qminmax Qround ZArith List Bool Lia.
From Stdlib Require Import Strings.String Strings.Ascii.
From Stdlib Require Import Sorting.Permutation.
Import ListNotations.

(* ================================================================== *)
(** * JavaScript string primitives used by the sources                 *)
(* ================================================================== *)

(** Strings are sequences of one-byte code units (the Latin-1 range of
    JavaScript's UTF-16 code units). *)
Module JS.

Local Open Scope string_scope.

(** [s.startsWith(p)] *)
Definition startsWith (s p : string) : bool := String.prefix p s.

(** [s.slice(n)] *)
Fixpoint slice (n : nat) (s : string) : string :=
  match n, s with
  | O, _ => s
  | S _, EmptyString => EmptyString
  | S n', String _ s' => slice n' s'
  end.

(** First occurrence of [sep] in [s]: the text before it and the text
    after it. *)
Fixpoint cut (sep s : string) : option (string * string) :=
  if String.prefix sep s then Some (EmptyString, slice (String.length sep) s)
  else match s with
       | EmptyString => None
       | String c s' =>
           match cut sep s' with
           | Some (before, after) => Some (String c before, after)
           | None => None
           end
       end.

(** [s.includes(sub)] *)
Definition includes (s sub : string) : bool :=
  match cut sub s with Some _ => true | None => false end.

(** [s.split(sep)[1]], used by the sources only when [s.includes(sep)]:
    the text between the first and the second occurrence of [sep]. *)
Definition split_1 (s sep : string) : option string :=
  match cut sep s with
  | None => None
  | Some (_, after) =>
      match cut sep after with
      | None => Some after
      | Some (between, _) => Some between
      end
  end.

Definition between (lo hi n : nat) : bool := (lo <=? n)%nat && (n <=? hi)%nat.

Definition lowerChar (c : ascii) : ascii :=
  let n := nat_of_ascii c in
  if between 65 90 n || (between 192 222 n && negb (n =? 215)%nat)
  then ascii_of_nat (n + 32) else c.

(** [s.toLowerCase()] *)
Fixpoint toLowerCase (s : string) : string :=
  match s with
  | EmptyString => EmptyString
  | String c s' => String (lowerChar c) (toLowerCase s')
  end.

(** White space and line terminators: TAB, LF, VT, FF, CR, SP, NBSP. *)
Definition isWhiteSpace (c : ascii) : bool :=
  let n := nat_of_ascii c in
  between 9 13 n || (n =? 32)%nat || (n =? 160)%nat.

Fixpoint trimStart (s : string) : string :=
  match s with
  | EmptyString => EmptyString
  | String c s' => if isWhiteSpace c then trimStart s' else s
  end.

Fixpoint trimEnd (s : string) : string :=
  match s with
  | EmptyString => EmptyString
  | String c s' =>
      let r := trimEnd s' in
      if isWhiteSpace c && (r =? EmptyString) then EmptyString
      else String c r
  end.

(** [s.trim()] *)
Definition trim (s : string) : string := trimEnd (trimStart s).

(** Truthiness of a string: only the empty string is falsy. *)
Definition truthy (s : string) : bool := negb (s =? EmptyString).

(** [m || fallback] on a possibly-undefined string. *)
Definition orElse (m : option string) (fallback : string) : string :=
  match m with
  | Some s => if truthy s then s else fallback
  | None => fallback
  end.

(** [`${v}`] for a possibly-undefined string. *)
Definition interpolate (v : option string) : string :=
  match v with Some s => s | None => "undefined" end.

(** The longest prefix without [';'], and the rest. *)
Fixpoint spanNotSemicolon (s : string) : string * string :=
  match s with
  | EmptyString => (EmptyString, EmptyString)
  | String c s' =>
      if (c =? ";")%char then (EmptyString, s)
      else let (t, r) := spanNotSemicolon s' in (String c t, r)
  end.

(** [/data:([^;]+);/] tried at the start of [s]: the captured group.
    The class is greedy and cannot give characters back to the closing
    [';'], so the group is the whole run up to the first [';']. *)
Definition matchDataTagHere (s : string) : option string :=
  if String.prefix "data:" s then
    let (t, r) := spanNotSemicolon (slice 5 s) in
    if truthy t && String.prefix ";" r then Some t else None
  else None.

(** [s.match(/data:([^;]+);/)]: group 1 of the leftmost match. *)
Fixpoint matchDataTag (s : string) : option string :=
  match matchDataTagHere s with
  | Some t => Some t
  | None =>
      match s with
      | EmptyString => None
      | String _ s' => matchDataTag s'
      end
  end.

(** A type tag proper: no [';'] inside. *)
Fixpoint noSemicolon (s : string) : bool :=
  match s with
  | EmptyString => true
  | String c s' => negb (c =? ";")%char && noSemicolon s'
  end.

(** The payload contains the data-URL type tag [tag]: the text between a
    ["data:"] and the next [';'], not empty. *)
Definition CarriesTag (payload tag : string) : Prop :=
  exists before rest,
    payload = before ++ "data:" ++ tag ++ ";" ++ rest
    /\ tag <> EmptyString /\ noSemicolon tag = true.

(** Only white space and line terminators. *)
Fixpoint allWhiteSpace (s : string) : bool :=
  match s with
  | EmptyString => true
  | String c s' => isWhiteSpace c && allWhiteSpace s'
  end.

(** No [','] inside: media types and base64 text are such. *)
Fixpoint noComma (s : string) : bool :=
  match s with
  | EmptyString => true
  | String c s' => negb (c =? ",")%char && noComma s'
  end.

End JS.

(* ================================================================== *)
(** * types.ts                                                         *)
(* ================================================================== *)

Module Types.

Record ImageState : Type := {
  data : string;      (* Base64 *)
  mimeType : string
}.

(** [AspectRatio] is a union of string literals; at run time a string. *)
Definition AspectRatio : Type := string.

Record GeneratedImage : Type := {
  id : string;
  url : string;
  prompt : string;
  sourceImages : option (list string);   (* sourceImages?: string[] *)
  timestamp : Z
}.

End Types.

(* ================================================================== *)
(** * components/ZoomableImage.tsx                                     *)
(* ================================================================== *)

Module ZoomableImage.

Local Open Scope Q_scope.

Record Point : Type := { x : Q; y : Q }.

Definition origin : Point := {| x := 0; y := 0 |}.

(** The [useState] cells of the component. *)
Record State : Type := {
  scale : Q;
  position : Point;
  isDragging : bool;
  dragStart : Point;
  showHint : bool
}.

(** [useState(1)], [useState({x: 0, y: 0})], [useState(false)], ... *)
Definition initial : State :=
  {| scale := 1; position := origin; isDragging := false;
     dragStart := origin; showHint := false |}.

Definition setScale (v : Q) (s : State) : State :=
  {| scale := v; position := position s; isDragging := isDragging s;
     dragStart := dragStart s; showHint := showHint s |}.

Definition setPosition (p : Point) (s : State) : State :=
  {| scale := scale s; position := p; isDragging := isDragging s;
     dragStart := dragStart s; showHint := showHint s |}.

Definition setIsDragging (b : bool) (s : State) : State :=
  {| scale := scale s; position := position s; isDragging := b;
     dragStart := dragStart s; showHint := showHint s |}.

Definition setDragStart (p : Point) (s : State) : State :=
  {| scale := scale s; position := position s; isDragging := isDragging s;
     dragStart := p; showHint := showHint s |}.

Definition setShowHint (b : bool) (s : State) : State :=
  {| scale := scale s; position := position s; isDragging := isDragging s;
     dragStart := dragStart s; showHint := b |}.

(** [a > b] on numbers. *)
Definition gtb (a b : Q) : bool := negb (Qle_bool a b).

Record WheelEvent : Type := { ctrlKey : bool; deltaY : Q }.
Record MouseEvent : Type := { clientX : Q; clientY : Q }.

(** The effect on [src]: reset state when the source changes. *)
Definition onSrcChange (s : State) : State :=
  setPosition origin (setScale 1 s).

(** [Math.min(Math.max(1, prev + delta), 8)] *)
Definition clampScale (v : Q) : Q := Qmin (Qmax 1 v) 8.

Definition handleWheel (e : WheelEvent) (s : State) : State :=
  if ctrlKey e then
    let delta := - deltaY e * (2 # 1000) in
    let next := clampScale (scale s + delta) in
    let s' := if Qeq_bool next 1 then setPosition origin s else s in
    setScale next s'
  else
    if Qeq_bool (scale s) 1 then setShowHint true s else s.

(** The timer armed by the hint: [setShowHint(false)] after 2000 ms. *)
Definition hintTimeout (s : State) : State := setShowHint false s.

Definition handleMouseDown (e : MouseEvent) (s : State) : State :=
  if gtb (scale s) 1 then
    setDragStart {| x := clientX e - x (position s);
                    y := clientY e - y (position s) |}
                 (setIsDragging true s)
  else s.

Definition handleMouseMove (e : MouseEvent) (s : State) : State :=
  if isDragging s && gtb (scale s) 1 then
    setPosition {| x := clientX e - x (dragStart s);
                   y := clientY e - y (dragStart s) |} s
  else s.

Definition handleMouseUp (s : State) : State := setIsDragging false s.

Definition zoomIn (s : State) : State :=
  setScale (Qmin (scale s + (1 # 2)) 8) s.

Definition zoomOut (s : State) : State :=
  let next := Qmax 1 (scale s - (1 # 2)) in
  let s' := if Qeq_bool next 1 then setPosition origin s else s in
  setScale next s'.

Definition reset (s : State) : State :=
  setPosition origin (setScale 1 s).

(** Everything that can happen to a mounted viewer. *)
Inductive Event : Type :=
| Wheel (e : WheelEvent)
| MouseDown (e : MouseEvent)
| MouseMove (e : MouseEvent)
| MouseUp
| MouseLeave
| ZoomIn
| ZoomOut
| Reset
| SrcChange
| HintTimeout.

Definition step (s : State) (ev : Event) : State :=
  match ev with
  | Wheel e => handleWheel e s
  | MouseDown e => handleMouseDown e s
  | MouseMove e => handleMouseMove e s
  | MouseUp | MouseLeave => handleMouseUp s
  | ZoomIn => zoomIn s
  | ZoomOut => zoomOut s
  | Reset => reset s
  | SrcChange => onSrcChange s
  | HintTimeout => hintTimeout s
  end.

Definition run (evs : list Event) (s : State) : State :=
  fold_left step evs s.

(** The zoom operations proper. *)
Definition isZoomOp (ev : Event) : bool :=
  match ev with
  | Wheel _ | ZoomIn | ZoomOut | Reset => true
  | _ => false
  end.

(** A pointer gesture: press, any number of moves, release. *)
Definition isPanEvent (ev : Event) : bool :=
  match ev with
  | MouseDown _ | MouseMove _ | MouseUp | MouseLeave => true
  | _ => false
  end.

(** What the parent's render does to the viewer.  [shown] is the mounted
    viewer, if any: the [src] it was last rendered with and its state.
    A viewer that is not mounted is mounted with the initial state; the
    effect on [src] runs after the mount and after every render in which
    [src] differs from the previous one. *)
Definition rerender (shown : option (string * State)) (src : string)
  : string * State :=
  match shown with
  | None => (src, onSrcChange initial)
  | Some (old, s) =>
      if (old =? src)%string then (old, s) else (src, onSrcChange s)
  end.

(** The displayed image is not the one shown before. *)
Definition identityChanges (shown : option (string * State)) (src : string)
  : Prop :=
  match shown with
  | None => True
  | Some (old, _) => old <> src
  end.

(** The data-model invariant of the viewport. *)
Definition Inv (s : State) : Prop :=
  1 <= scale s /\ scale s <= 8 /\ (scale s == 1 -> position s = origin).

(** A wheel event that zooms: the only handler whose new scale is not a
    multiple of one half away from the old one. *)
Definition isCtrlWheel (ev : Event) : bool :=
  match ev with
  | Wheel e => ctrlKey e
  | _ => false
  end.

(** The scale is a whole number of half steps between 1 and 8.  On
    these values the sums and differences with one half that the
    steppers compute are exact in binary64 as they are on rationals. *)
Definition OnHalfSteps (s : State) : Prop :=
  exists k : Z, (2 <= k <= 16)%Z /\ scale s == k # 2.

(** ** What the render shows *)

(** [disabled={scale <= 1}] on the zoom-out button. *)
Definition zoomOutDisabled (s : State) : bool := Qle_bool (scale s) 1.

(** [disabled={scale >= 8}] on the zoom-in button. *)
Definition zoomInDisabled (s : State) : bool := Qle_bool 8 (scale s).

(** [{Math.round(scale * 100)}%]: rounding to the nearest integer, halves
    upwards. *)
Definition percentLabel (s : State) : Z := Qfloor (scale s * 100 + (1 # 2)).

(** [{showHint && scale === 1 && (...)}] *)
Definition hintVisible (s : State) : bool := showHint s && Qeq_bool (scale s) 1.

End ZoomableImage.

(* ================================================================== *)
(** * components/DragDropZone.tsx                                      *)
(* ================================================================== *)

Module DragDropZone.

Import Types.
Local Open Scope string_scope.

(** A [File]: its declared media type and the data URL that
    [FileReader.readAsDataURL] delivers for it in [e.target.result]. *)
Record File : Type := {
  type : string;
  result : string
}.

Definition isImage (file : File) : bool := JS.startsWith (type file) "image/".

(** The variables closed over by the callbacks of one [processFiles] call,
    and the calls made to [onImagesChange], oldest first. *)
Record Batch : Type := {
  newImages : list ImageState;
  processedCount : nat;
  committed : list (list ImageState)
}.

Definition start : Batch :=
  {| newImages := []; processedCount := 0; committed := [] |}.

Definition push (img : ImageState) (b : Batch) : Batch :=
  {| newImages := newImages b ++ [img];
     processedCount := processedCount b;
     committed := committed b |}.

Definition incr (b : Batch) : Batch :=
  {| newImages := newImages b;
     processedCount := S (processedCount b);
     committed := committed b |}.

Definition onImagesChange (images : list ImageState) (b : Batch) : Batch :=
  {| newImages := newImages b;
     processedCount := processedCount b;
     committed := committed b ++ [images] |}.

Definition toImage (file : File) : ImageState :=
  {| data := result file; mimeType := type file |}.

Section Closure.

Variable filesArray : list File.
Variable currentImages : list ImageState.

(** [reader.onload], identical in both revisions. *)
Definition onload (file : File) (b : Batch) : Batch :=
  let b := push (toImage file) b in
  let b := incr b in
  if (processedCount b =? List.length filesArray)%nat
  then onImagesChange (currentImages ++ newImages b) b
  else b.

(** The synchronous [forEach] body, Wasti revision: a file that is
    not an image is counted; an image gets a reader whose [onload]
    fires later. *)
Definition visit_wasti (b : Batch) (file : File) : Batch :=
  if negb (isImage file) then incr b else b.

(** The synchronous [forEach] body, Nano Banana revision. *)
Definition visit_nano (b : Batch) (file : File) : Batch :=
  if negb (isImage file) then
    let b := incr b in
    if (processedCount b =? List.length filesArray)%nat
       && (0 <? List.length (newImages b))%nat
    then onImagesChange (currentImages ++ newImages b) b
    else b
  else b.

(** Completion of the reader of the file at index [i]. *)
Definition complete (b : Batch) (i : nat) : Batch :=
  match nth_error filesArray i with
  | Some file => if isImage file then onload file b else b
  | None => b
  end.

(** [processFiles]: the synchronous pass over the batch, then the
    [onload] callbacks in the order [completions] in which the
    readers finish. *)
Definition processFilesWith (visit : Batch -> File -> Batch)
           (completions : list nat) : Batch :=
  if (List.length filesArray =? 0)%nat then start
  else fold_left complete completions (fold_left visit filesArray start).

End Closure.

Definition processFiles_wasti (files : list File) (currentImages : list ImageState)
  : list nat -> Batch :=
  processFilesWith files currentImages (visit_wasti).

Definition processFiles_nano (files : list File) (currentImages : list ImageState)
  : list nat -> Batch :=
  processFilesWith files currentImages (visit_nano files currentImages).

(** The indices of the files that get a reader. *)
Fixpoint imageIndicesFrom (i : nat) (files : list File) : list nat :=
  match files with
  | [] => []
  | file :: rest =>
      if isImage file then i :: imageIndicesFrom (S i) rest
      else imageIndicesFrom (S i) rest
  end.

Definition imageIndices (files : list File) : list nat :=
  imageIndicesFrom 0 files.

(** The file at index [i] exists and gets a reader. *)
Definition Readable (files : list File) (i : nat) : Prop :=
  exists f, nth_error files i = Some f /\ isImage f = true.

(** Every reader finishes exactly once, in any order. *)
Definition Schedule (files : list File) (completions : list nat) : Prop :=
  Permutation completions (imageIndices files).

(** The source-image list held by the parent once the batch is over:
    the argument of the last [onImagesChange], if any. *)
Definition sourceImagesAfter (currentImages : list ImageState) (b : Batch)
  : list ImageState :=
  last (committed b) currentImages.

(** The encoded images of the files at the given indices, in that order. *)
Definition imagesAt (files : list File) (indices : list nat) : list ImageState :=
  flat_map (fun i => match nth_error files i with
                     | Some file => [toImage file]
                     | None => []
                     end) indices.

(** The valid files of a batch, encoded, in input order. *)
Definition validImages (files : list File) : list ImageState :=
  map toImage (filter isImage files).

(** [removeImage] / [handleRemove]: [next.splice(index, 1)]. *)
Definition removeImage (index : nat) (currentImages : list ImageState)
  : list ImageState :=
  firstn index currentImages ++ skipn (S index) currentImages.

(** The ordering property under test: whatever the completion order, the
    batch leaves the old entries followed by the valid files' images in
    input order. *)
Definition CommitsInInputOrder
           (processFiles : list File -> list ImageState -> list nat -> Batch)
  : Prop :=
  forall files currentImages completions,
    Schedule files completions ->
    sourceImagesAfter currentImages (processFiles files currentImages completions)
    = (currentImages ++ validImages files)%list.

End DragDropZone.

(* ================================================================== *)
(** * services/gemini.ts                                               *)
(* ================================================================== *)

Module Gemini.

Import Types.
Local Open Scope string_scope.

Definition MODEL_NAME : string := "gemini-2.5-flash-image".

(** List of officially supported aspect ratios for the imageConfig
    property. *)
Definition SUPPORTED_ASPECT_RATIOS : list string :=
  ["1:1"; "2:3"; "3:2"; "3:4"; "4:3"; "4:5"; "5:4"; "9:16"; "16:9"; "21:9"].

Record GenerateOptions : Type := {
  prompt : string;
  sourceImages : option (list ImageState);   (* sourceImages?: ... *)
  aspectRatio : option AspectRatio           (* aspectRatio?: AspectRatio *)
}.

(** What is handed to [ai.models.generateContent]. *)
Inductive Part : Type :=
| InlinePart (data : string) (mimeType : string)
| TextPart (text : string).

Record Request : Type := {
  model : string;
  parts : list Part;
  imageConfig_aspectRatio : string;
  systemInstruction : string
}.

(** What [ai.models.generateContent] answers. *)
Record Blob : Type := {
  blob_mimeType : option string;
  blob_data : option string
}.

Record ResponsePart : Type := {
  inlineData : option Blob;
  text : option string
}.

Record Content : Type := { content_parts : option (list ResponsePart) }.
Record Candidate : Type := { content : option Content }.
Record Response : Type := { candidates : option (list Candidate) }.

(** The remote call either rejects with an error object, whose [message]
    may be missing, or resolves with a response. *)
Inductive Outcome : Type :=
| Failed (message : option string)
| Answered (response : Response).

(** How the promise returned by [generateOrEditImage] settles. *)
Inductive Settled : Type :=
| Fulfilled (dataUrl : string)
| Rejected (message : string).

Definition BASE_INSTRUCTION : string :=
  "You are an advanced image generation model. Your task is to generate or edit images based on the user's prompt. Do not output text descriptions; always generate the requested image.".

(** [aspectRatio = "1:1"] in the parameter list. *)
Definition ratioOf (opts : GenerateOptions) : string :=
  match aspectRatio opts with Some r => r | None => "1:1" end.

(** Extract base64 data if it contains the header prefix. *)
Definition cleanBase64 (img : ImageState) : string :=
  match JS.split_1 (data img) "base64," with
  | Some piece => piece          (* includes('base64,'): split(...)[1] *)
  | None => data img
  end.

Definition imageParts (opts : GenerateOptions) : list Part :=
  match sourceImages opts with
  | Some imgs => map (fun img => InlinePart (cleanBase64 img) (mimeType img)) imgs
  | None => []
  end.

Definition noSourceImages (opts : GenerateOptions) : bool :=
  match sourceImages opts with
  | Some imgs => (List.length imgs =? 0)%nat
  | None => true
  end.

(** Enhance prompt to ensure image generation. *)
Definition finalPrompt (opts : GenerateOptions) : string :=
  if noSourceImages opts then
    let lowerPrompt := JS.toLowerCase (prompt opts) in
    if negb (JS.includes lowerPrompt "generate")
       && negb (JS.includes lowerPrompt "create")
       && negb (JS.includes lowerPrompt "image")
    then "Generate an image of " ++ prompt opts
    else prompt opts
  else prompt opts.

Definition requestParts (opts : GenerateOptions) : list Part :=
  imageParts opts ++ [TextPart (finalPrompt opts)].

Definition dataUrlOf (b : Blob) : string :=
  "data:" ++ JS.interpolate (blob_mimeType b) ++ ";base64,"
          ++ JS.interpolate (blob_data b).

(** First loop over [content.parts]: the first part with [inlineData]. *)
Fixpoint firstInlineData (ps : list ResponsePart) : option Blob :=
  match ps with
  | [] => None
  | p :: rest =>
      match inlineData p with
      | Some b => Some b
      | None => firstInlineData rest
      end
  end.

(** Second loop: the first part with a truthy [text]. *)
Fixpoint firstText (ps : list ResponsePart) : option string :=
  match ps with
  | [] => None
  | p :: rest =>
      match text p with
      | Some t => if JS.truthy t then Some t else firstText rest
      | None => firstText rest
      end
  end.

Definition NO_IMAGE : string :=
  "No image generated. The model response was empty or invalid.".

(** Parse the response to find the image: the value returned, or the
    message of the error thrown, inside the [try] block. *)
Definition parseResponse (r : Response) : string + string :=
  match candidates r with
  | Some (c :: _) =>
      match content c with
      | Some ct =>
          match content_parts ct with
          | Some ps =>
              match firstInlineData ps with
              | Some b => inl (dataUrlOf b)
              | None =>
                  match firstText ps with
                  | Some t => inr ("Model returned text instead of image: " ++ t)
                  | None => inr NO_IMAGE
                  end
              end
          | None => inr NO_IMAGE
          end
      | None => inr NO_IMAGE
      end
  | _ => inr NO_IMAGE
  end.

(** [catch (error) { throw new Error(error.message || "Failed ...") }] *)
Definition rethrow (message : option string) : Settled :=
  Rejected (JS.orElse message "Failed to process image request.").

Definition settle (o : Outcome) : Settled :=
  match o with
  | Failed message => rethrow message
  | Answered r =>
      match parseResponse r with
      | inl dataUrl => Fulfilled dataUrl
      | inr message => rethrow (Some message)
      end
  end.

(** A response whose first candidate has no image part but a part with
    text [t]: the service answered with a description. *)
Definition TextInsteadOfImage (r : Response) (t : string) : Prop :=
  exists c cs ct ps,
    candidates r = Some (c :: cs) /\ content c = Some ct
    /\ content_parts ct = Some ps
    /\ firstInlineData ps = None /\ firstText ps = Some t.

(** The remote call failed: it rejected, or its response holds no image. *)
Definition CallFails (o : Outcome) : Prop :=
  match o with
  | Failed _ => True
  | Answered r => exists m, parseResponse r = inr m
  end.

(** The Wasti revision: unsupported aspect ratios are mapped and
    described in the system instruction. *)
Module Wasti.

Definition isSpecialRatio (opts : GenerateOptions) : bool :=
  negb (existsb (String.eqb (ratioOf opts)) SUPPORTED_ASPECT_RATIOS).

Definition configRatio (opts : GenerateOptions) : string :=
  if isSpecialRatio opts then "21:9" else ratioOf opts.

Definition specialRequest (ratio : string) : string :=
  " Special formatting request: The user wants an ultra-wide panoramic aspect ratio of "
  ++ ratio
  ++ ". Since the canvas is limited to 21:9, ensure the composition is cinematic and uses the full horizontal width for an ultra-wide feel.".

Definition instructionOf (opts : GenerateOptions) : string :=
  if isSpecialRatio opts
  then BASE_INSTRUCTION ++ specialRequest (ratioOf opts)
  else BASE_INSTRUCTION.

Definition buildRequest (opts : GenerateOptions) : Request :=
  {| model := MODEL_NAME;
     parts := requestParts opts;
     imageConfig_aspectRatio := configRatio opts;
     systemInstruction := instructionOf opts |}.

(** The request sent, and how the returned promise settles on each
    outcome of the remote call. *)
Definition generateOrEditImage (opts : GenerateOptions)
  : Request * (Outcome -> Settled) :=
  (buildRequest opts, settle).

End Wasti.

(** The Nano Banana revision: the aspect ratio is passed as it is. *)
Module NanoBanana.

Definition buildRequest (opts : GenerateOptions) : Request :=
  {| model := MODEL_NAME;
     parts := requestParts opts;
     imageConfig_aspectRatio := ratioOf opts;
     systemInstruction := BASE_INSTRUCTION |}.

Definition generateOrEditImage (opts : GenerateOptions)
  : Request * (Outcome -> Settled) :=
  (buildRequest opts, settle).

End NanoBanana.

(** [response.candidates[0].content.parts], when every step of the path
    is there. *)
Definition firstParts (r : Response) : option (list ResponsePart) :=
  match candidates r with
  | Some (c :: _) =>
      match content c with
      | Some ct => content_parts ct
      | None => None
      end
  | _ => None
  end.

(** The response holds no image: no part of its first candidate carries
    inline data (or there is no such candidate, content or part list). *)
Definition HoldsNoImage (r : Response) : Prop :=
  match firstParts r with
  | Some ps => Forall (fun q => inlineData q = None) ps
  | None => True
  end.

(** The response holds text instead of an image: no part of its first
    candidate carries inline data, and [t] is the first non-empty text
    among those parts. *)
Definition AnswersWithText (r : Response) (t : string) : Prop :=
  exists before p after,
    firstParts r = Some (before ++ p :: after)%list
    /\ Forall (fun q => inlineData q = None) (before ++ p :: after)%list
    /\ Forall (fun q => text q = None \/ text q = Some EmptyString) before
    /\ text p = Some t /\ t <> EmptyString.

(** The remote generation call failed, as seen from outside the client:
    the call was rejected (transport or API error), or it was answered
    by a response that holds no image. *)
Definition RemoteFailure (o : Outcome) : Prop :=
  match o with
  | Failed _ => True
  | Answered r => HoldsNoImage r
  end.

(** A response in which the first candidate, if there is one with
    content and parts, has neither an image part nor a part with
    non-empty text. *)
Definition NothingUsable (r : Response) : Prop :=
  match candidates r with
  | Some (c :: _) =>
      match content c with
      | Some ct =>
          match content_parts ct with
          | Some ps =>
              Forall (fun q => inlineData q = None
                               /\ (text q = None \/ text q = Some EmptyString))
                     ps
          | None => True
          end
      | None => True
      end
  | _ => True
  end.

End Gemini.

(* ================================================================== *)
(** * App.tsx                                                          *)
(* ================================================================== *)

Module App.

Import Types.
Local Open Scope string_scope.

(** The [useState] cells of [App].  [isCopied] exists in the Wasti
    revision only; the Nano Banana revision never touches it. *)
Record State : Type := {
  prompt : string;
  sourceImages : list ImageState;
  generatedImage : option string;
  isLoading : bool;
  isCopied : bool;
  error : option string;
  aspectRatio : AspectRatio;
  history : list GeneratedImage
}.

Definition initial : State :=
  {| prompt := ""; sourceImages := []; generatedImage := None;
     isLoading := false; isCopied := false; error := None;
     aspectRatio := "1:1"; history := [] |}.

Definition setPrompt (v : string) (s : State) : State :=
  {| prompt := v; sourceImages := sourceImages s;
     generatedImage := generatedImage s; isLoading := isLoading s;
     isCopied := isCopied s; error := error s;
     aspectRatio := aspectRatio s; history := history s |}.

Definition setSourceImages (v : list ImageState) (s : State) : State :=
  {| prompt := prompt s; sourceImages := v;
     generatedImage := generatedImage s; isLoading := isLoading s;
     isCopied := isCopied s; error := error s;
     aspectRatio := aspectRatio s; history := history s |}.

Definition setGeneratedImage (v : option string) (s : State) : State :=
  {| prompt := prompt s; sourceImages := sourceImages s;
     generatedImage := v; isLoading := isLoading s;
     isCopied := isCopied s; error := error s;
     aspectRatio := aspectRatio s; history := history s |}.

Definition setIsLoading (v : bool) (s : State) : State :=
  {| prompt := prompt s; sourceImages := sourceImages s;
     generatedImage := generatedImage s; isLoading := v;
     isCopied := isCopied s; error := error s;
     aspectRatio := aspectRatio s; history := history s |}.

Definition setError (v : option string) (s : State) : State :=
  {| prompt := prompt s; sourceImages := sourceImages s;
     generatedImage := generatedImage s; isLoading := isLoading s;
     isCopied := isCopied s; error := v;
     aspectRatio := aspectRatio s; history := history s |}.

Definition setAspectRatio (v : AspectRatio) (s : State) : State :=
  {| prompt := prompt s; sourceImages := sourceImages s;
     generatedImage := generatedImage s; isLoading := isLoading s;
     isCopied := isCopied s; error := error s;
     aspectRatio := v; history := history s |}.

Definition setHistory (v : list GeneratedImage) (s : State) : State :=
  {| prompt := prompt s; sourceImages := sourceImages s;
     generatedImage := generatedImage s; isLoading := isLoading s;
     isCopied := isCopied s; error := error s;
     aspectRatio := aspectRatio s; history := v |}.

(** What the environment supplies when a history item is built:
    [Date.now().toString()], [Math.random().toString(36).substring(7)]
    and the second [Date.now()]. *)
Record Clock : Type := {
  nowText : string;
  randomSuffix : string;
  now : Z
}.

(** A dispatched generation: the argument of [generateOrEditImage], the
    request it sends, and the rest of [handleGenerate] after the
    [await], run on the state current when the remote call settles. *)
Record Pending : Type := {
  call : Gemini.GenerateOptions;
  request : Gemini.Request;
  resume : Clock -> Gemini.Outcome -> State -> State
}.

(** [!prompt.trim()] *)
Definition blank (p : string) : bool := negb (JS.truthy (JS.trim p)).

Section HandleGenerate.

(** The revision of services/gemini.ts the application is built with. *)
Variable generateOrEditImage :
  Gemini.GenerateOptions -> Gemini.Request * (Gemini.Outcome -> Gemini.Settled).

(** The state [s0] is the render [handleGenerate] was created in: its
    [prompt] and [sourceImages] are the ones captured by the closure. *)
Definition newHistoryItem (s0 : State) (clk : Clock) (result : string)
  : GeneratedImage :=
  {| id := nowText clk ++ randomSuffix clk;
     url := result;
     Types.prompt := prompt s0;
     Types.sourceImages := Some (map data (sourceImages s0));
     timestamp := now clk |}.

(** [try { ... } catch (err) { ... } finally { setIsLoading(false) }]
    from the [await] on. *)
Definition afterAwait (s0 : State) (settled : Gemini.Settled) (clk : Clock)
           (st : State) : State :=
  let st :=
    match settled with
    | Gemini.Fulfilled result =>
        let st := setGeneratedImage (Some result) st in
        setHistory (newHistoryItem s0 clk result :: history st) st
    | Gemini.Rejected message =>
        setError (Some (JS.orElse (Some message)
                                  "An unexpected error occurred.")) st
    end in
  setIsLoading false st.

(** From [setIsLoading(true)] to the [await]. *)
Definition dispatch (s : State) : State * option Pending :=
  let opts := {| Gemini.prompt := prompt s;
                 Gemini.sourceImages := Some (sourceImages s);
                 Gemini.aspectRatio := Some (aspectRatio s) |} in
  let (req, settle) := generateOrEditImage opts in
  (setError None (setIsLoading true s),
   Some {| call := opts; request := req;
           resume := fun clk o st => afterAwait s (settle o) clk st |}).

End HandleGenerate.

(** The submit [Button]: [disabled={!prompt.trim() || isLoading}] and
    [isLoading={isLoading}]; Button.tsx renders
    [disabled={disabled || isLoading}]. *)
Definition buttonDisabled (s : State) : bool :=
  (blank (prompt s) || isLoading s) || isLoading s.

Record KeyboardEvent : Type := { key : string; shiftKey : bool }.

Module Wasti.

Definition handleGenerate (s : State) : State * option Pending :=
  if blank (prompt s) || isLoading s then (s, None)
  else dispatch Gemini.Wasti.generateOrEditImage s.

Definition handleKeyDown (e : KeyboardEvent) (s : State)
  : State * option Pending :=
  if (key e =? "Enter") && negb (shiftKey e) then handleGenerate s
  else (s, None).

(** A click on the submit button; a disabled button fires nothing. *)
Definition clickSubmit (s : State) : State * option Pending :=
  if buttonDisabled s then (s, None) else handleGenerate s.

(** A click on a history item. *)
Definition clickHistory (item : GeneratedImage) (s : State) : State :=
  setPrompt (Types.prompt item) (setGeneratedImage (Some (url item)) s).

End Wasti.

Module NanoBanana.

Definition handleUseAsReference (s : State) : State :=
  match generatedImage s with
  | Some g =>
      let newImage := {| data := g; mimeType := "image/png" |} in
      setGeneratedImage None (setSourceImages (sourceImages s ++ [newImage]) s)
  | None => s
  end.

Definition handleGenerate (s : State) : State * option Pending :=
  if blank (prompt s) then (s, None)
  else dispatch Gemini.NanoBanana.generateOrEditImage s.

Definition clickSubmit (s : State) : State * option Pending :=
  if buttonDisabled s then (s, None) else handleGenerate s.

(** The callback mapped over [item.sourceImages]. *)
Definition restoreImage (data : string) : ImageState :=
  let mimeMatch := JS.matchDataTag data in
  let mimeType := match mimeMatch with
                  | Some group1 => group1
                  | None => "image/png"
                  end in
  {| Types.data := data; Types.mimeType := mimeType |}.

Definition handleRestoreHistory (item : GeneratedImage) (s : State) : State :=
  let s := setGeneratedImage (Some (url item)) s in
  let s := setPrompt (Types.prompt item) s in
  match Types.sourceImages item with
  | Some (d :: ds) => setSourceImages (map restoreImage (d :: ds)) s
  | _ => setSourceImages [] s
  end.

Definition handleDeleteHistory (id : string) (s : State) : State :=
  setHistory (filter (fun item => negb (Types.id item =? id)) (history s)) s.

End NanoBanana.

(** [onClick={() => setHistory([])}] in both revisions. *)
Definition clearHistory (s : State) : State := setHistory [] s.

(** ** The event loop around [App]

    A configuration is the committed state and the generations in
    flight, oldest first. *)
Record Config : Type := {
  ui : State;
  inflight : list Pending
}.

Inductive Event : Type :=
| Submit                          (* click on the submit button *)
| KeyDown (e : KeyboardEvent)     (* key press in the prompt box (Wasti) *)
| Typed (text : string)           (* setPrompt(e.target.value) *)
| ImagesChanged (images : list ImageState)
| RatioChosen (ratio : AspectRatio)
| HistoryClicked (item : GeneratedImage)
| HistoryDeleted (id : string)
| HistoryCleared
| UseAsReference
| Settles (clk : Clock) (o : Gemini.Outcome).  (* the oldest call settles *)

Definition launched (c : Config) (r : State * option Pending) : Config :=
  match r with
  | (s, Some p) => {| ui := s; inflight := inflight c ++ [p] |}
  | (s, None) => {| ui := s; inflight := inflight c |}
  end.

Definition settles (clk : Clock) (o : Gemini.Outcome) (c : Config) : Config :=
  match inflight c with
  | p :: rest => {| ui := resume p clk o (ui c); inflight := rest |}
  | [] => c
  end.

Definition local (f : State -> State) (c : Config) : Config :=
  {| ui := f (ui c); inflight := inflight c |}.

Definition step_wasti (c : Config) (ev : Event) : Config :=
  match ev with
  | Submit => launched c (Wasti.clickSubmit (ui c))
  | KeyDown e => launched c (Wasti.handleKeyDown e (ui c))
  | Typed text => local (setPrompt text) c
  | ImagesChanged images => local (setSourceImages images) c
  | RatioChosen ratio => local (setAspectRatio ratio) c
  | HistoryClicked item => local (Wasti.clickHistory item) c
  | HistoryDeleted _ => c
  | HistoryCleared => local clearHistory c
  | UseAsReference => c
  | Settles clk o => settles clk o c
  end.

Definition step_nano (c : Config) (ev : Event) : Config :=
  match ev with
  | Submit => launched c (NanoBanana.clickSubmit (ui c))
  | KeyDown _ => c
  | Typed text => local (setPrompt text) c
  | ImagesChanged images => local (setSourceImages images) c
  | RatioChosen ratio => local (setAspectRatio ratio) c
  | HistoryClicked item => local (NanoBanana.handleRestoreHistory item) c
  | HistoryDeleted id => local (NanoBanana.handleDeleteHistory id) c
  | HistoryCleared => local clearHistory c
  | UseAsReference => local NanoBanana.handleUseAsReference c
  | Settles clk o => settles clk o c
  end.

Definition boot : Config := {| ui := initial; inflight := [] |}.

Definition run (step : Config -> Event -> Config) (evs : list Event) : Config :=
  fold_left step evs boot.

(** The busy flag mirrors the calls in flight: at most one, and exactly
    when [isLoading] is set; a call in flight clears the flag when it
    settles. *)
Definition Admission (c : Config) : Prop :=
  Forall (fun p => forall clk o st, isLoading (resume p clk o st) = false)
         (inflight c)
  /\ ((isLoading (ui c) = true /\ List.length (inflight c) = 1%nat)
      \/ (isLoading (ui c) = false /\ inflight c = [])).

(** The parent's [setSourceImages] applied to the successive arguments of
    [onImagesChange]. *)
Definition applyCommits (commits : list (list ImageState)) (s : State) : State :=
  fold_left (fun s images => setSourceImages images s) commits s.

(** An image whose data URL declares the media type the image is
    labelled with, as [FileReader.readAsDataURL] produces for a file. *)
Definition WellTagged (img : ImageState) : Prop :=
  exists rest,
    data img = "data:" ++ mimeType img ++ ";" ++ rest
    /\ mimeType img <> "" /\ JS.noSemicolon (mimeType img) = true.

End App.

(* ================================================================== *)
(** * Properties of the viewport                                       *)
(* ================================================================== *)

Module ViewportFacts.

Import ZoomableImage.
Local Open Scope Q_scope.

Lemma clampScale_bounds (v : Q) : 1 <= clampScale v /\ clampScale v <= 8.
Proof.
  unfold clampScale; split.
  - apply Q.min_glb; [apply Q.le_max_l | discriminate].
  - apply Q.le_min_r.
Qed.

Lemma gtb_false_at_one (v : Q) : v == 1 -> gtb v 1 = false.
Proof.
  intros Hv; unfold gtb.
  assert (Hle : Qle_bool v 1 = true)
    by (apply Qle_bool_iff; rewrite Hv; apply Qle_refl).
  now rewrite Hle.
Qed.

Lemma gtb_true_not_one (v : Q) : gtb v 1 = true -> ~ v == 1.
Proof.
  intros Hgt Hv. rewrite (gtb_false_at_one v Hv) in Hgt. discriminate.
Qed.

(** The two handlers that test [next === 1] leave the invariant in place
    whatever the scale they compute, as long as it is within bounds. *)
Lemma Inv_resetting (next : Q) (s : State) :
  1 <= next -> next <= 8 ->
  Inv (setScale next (if Qeq_bool next 1 then setPosition origin s else s)).
Proof.
  intros Hlo Hhi. unfold Inv. destruct (Qeq_bool next 1) eqn:E; cbn.
  - repeat split; auto.
  - repeat split; auto. intros H1.
    apply Qeq_bool_iff in H1. congruence.
Qed.

Lemma Inv_initial : Inv initial.
Proof. unfold Inv; cbn. repeat split; discriminate. Qed.

Lemma Inv_handleWheel e s : Inv s -> Inv (handleWheel e s).
Proof.
  intros HI. unfold handleWheel. destruct (ctrlKey e).
  - destruct (clampScale_bounds (scale s + - deltaY e * (2 # 1000))).
    now apply Inv_resetting.
  - destruct (Qeq_bool (scale s) 1); exact HI.
Qed.

Lemma Inv_zoomIn s : Inv s -> Inv (zoomIn s).
Proof.
  intros (Hlo & Hhi & _). unfold Inv, zoomIn; cbn.
  assert (Hstep : 1 < scale s + (1 # 2)).
  { apply Qle_lt_trans with (scale s + 0).
    - now rewrite Qplus_0_r.
    - apply Qplus_lt_r. reflexivity. }
  assert (Hmin : 1 < Qmin (scale s + (1 # 2)) 8)
    by (apply Q.min_glb_lt; [exact Hstep | reflexivity]).
  repeat split.
  - now apply Qlt_le_weak.
  - apply Q.le_min_r.
  - intros H1. rewrite H1 in Hmin. now apply Qlt_irrefl in Hmin.
Qed.

Lemma Inv_zoomOut s : Inv s -> Inv (zoomOut s).
Proof.
  intros (Hlo & Hhi & _). unfold zoomOut. apply Inv_resetting.
  - apply Q.le_max_l.
  - apply Q.max_lub; [discriminate|].
    apply Qle_trans with (scale s); [|exact Hhi].
    apply Qle_trans with (scale s - 0).
    + apply Qplus_le_r. discriminate.
    + unfold Qminus. setoid_replace (- 0) with 0 by reflexivity.
      rewrite Qplus_0_r. apply Qle_refl.
Qed.

Lemma Inv_handleMouseMove e s : Inv s -> Inv (handleMouseMove e s).
Proof.
  intros HI. unfold handleMouseMove.
  destruct (isDragging s); cbn [andb]; [|exact HI].
  destruct (gtb (scale s) 1) eqn:G; [|exact HI].
  destruct HI as (Hlo & Hhi & _). unfold Inv; cbn. repeat split; auto.
  intros H1. now apply gtb_true_not_one in G.
Qed.

Lemma Inv_step s ev : Inv s -> Inv (step s ev).
Proof.
  intros HI. destruct ev; cbn [step].
  - now apply Inv_handleWheel.
  - unfold handleMouseDown. destruct (gtb (scale s) 1); exact HI.
  - now apply Inv_handleMouseMove.
  - exact HI.
  - exact HI.
  - now apply Inv_zoomIn.
  - now apply Inv_zoomOut.
  - unfold Inv; cbn. repeat split; discriminate.
  - unfold Inv; cbn. repeat split; discriminate.
  - exact HI.
Qed.

Lemma Inv_run evs : forall s, Inv s -> Inv (run evs s).
Proof.
  induction evs as [|ev evs IH]; intros s HI; cbn; [exact HI|].
  apply IH. now apply Inv_step.
Qed.

(** C1.  Whatever the user does to a mounted viewer (wheel zoom with or
    without the modifier, the zoom-in and zoom-out steppers, reset, drags,
    a change of image), the scale stays within [1, 8], and a scale of 1
    comes with the translation (0,0): in every reachable state, hence
    after every single update that makes the scale 1. *)
Theorem viewport_scale_invariant :
  forall (evs : list Event),
    let s := run evs initial in
    (1 <= scale s /\ scale s <= 8) /\
    (scale s == 1 -> position s = origin) /\
    (forall ev : Event,
        scale (step s ev) == 1 -> position (step s ev) = origin).
Proof.
  intros evs s.
  assert (HI : Inv s) by (apply Inv_run, Inv_initial).
  split; [|split].
  - destruct HI as (Hlo & Hhi & _). now split.
  - now destruct HI as (_ & _ & H1).
  - intros ev. now destruct (Inv_step s ev HI) as (_ & _ & H1).
Qed.

(** C7.  Whenever the viewer is rendered with an image other than the
    one it showed (a new result, a selected history item), it ends at
    scale 1 and translation (0,0), whatever zoom and pan were in effect
    before; the effect on [src] does so from any state. *)
Theorem src_change_resets_viewport :
  forall (shown : option (string * State)) (src : string),
    identityChanges shown src ->
    let viewer := rerender shown src in
    fst viewer = src
    /\ scale (snd viewer) = 1 /\ position (snd viewer) = origin
    /\ forall s : State,
         scale (onSrcChange s) = 1 /\ position (onSrcChange s) = origin.
Proof.
  intros shown src Hchg viewer. unfold viewer, rerender.
  destruct shown as [[old s]|]; cbn in Hchg.
  - apply String.eqb_neq in Hchg. rewrite Hchg. cbn. repeat split.
  - cbn. repeat split.
Qed.

Lemma src_change_resets_viewport_witness :
  let zoomed := run [Wheel {| ctrlKey := true; deltaY := -1000 |};
                     MouseDown {| clientX := 5; clientY := 5 |};
                     MouseMove {| clientX := 15; clientY := 25 |}] initial in
  let viewer := rerender (Some ("data:image/png;base64,AAAA"%string, zoomed))
                         "data:image/png;base64,BBBB" in
  scale zoomed == 3 /\ position zoomed = {| x := 10; y := 20 |}
  /\ scale (snd viewer) = 1 /\ position (snd viewer) = origin.
Proof.
  intros zoomed viewer.
  split; [reflexivity|]. split; [reflexivity|].
  assert (Hchg : identityChanges
                   (Some ("data:image/png;base64,AAAA"%string, zoomed))
                   "data:image/png;base64,BBBB") by discriminate.
  destruct (src_change_resets_viewport _ _ Hchg) as (_ & Hs & Hp & _).
  now split.
Defined.

Lemma pan_event_at_one (s : State) (ev : Event) :
  isPanEvent ev = true -> scale s == 1 ->
  scale (step s ev) = scale s /\ position (step s ev) = position s.
Proof.
  intros Hpan H1. pose proof (gtb_false_at_one _ H1) as G.
  destruct ev; try discriminate; cbn [step].
  - unfold handleMouseDown. rewrite G. now split.
  - unfold handleMouseMove. rewrite G, andb_false_r. now split.
  - now split.
  - now split.
Qed.

(** C8.  While the scale is 1, pressing the pointer and moving it change
    nothing in the viewer's state, and a whole drag gesture (press, moves,
    release, leave) ends with the translation and the scale it started
    with. *)
Theorem pan_at_scale_one_is_noop :
  forall (s : State),
    scale s == 1 ->
    (forall e : MouseEvent, handleMouseDown e s = s) /\
    (forall e : MouseEvent, handleMouseMove e s = s) /\
    (forall gesture : list Event,
        forallb isPanEvent gesture = true ->
        position (run gesture s) = position s /\
        scale (run gesture s) = scale s).
Proof.
  intros s H1. pose proof (gtb_false_at_one _ H1) as G.
  split; [|split].
  - intros e. unfold handleMouseDown. now rewrite G.
  - intros e. unfold handleMouseMove. now rewrite G, andb_false_r.
  - intros gesture. unfold run. revert s H1 G.
    induction gesture as [|ev evs IH]; intros s H1 G Hall; cbn; [now split|].
    cbn in Hall. apply andb_prop in Hall as [Hev Hevs].
    destruct (pan_event_at_one s ev Hev H1) as [Hs Hp].
    assert (H1' : scale (step s ev) == 1) by now rewrite Hs.
    destruct (IH (step s ev) H1' (gtb_false_at_one _ H1') Hevs) as [Hp' Hs'].
    split; congruence.
Qed.

Lemma pan_at_scale_one_is_noop_witness :
  let e := {| clientX := 40; clientY := 25 |} in
  handleMouseDown e initial = initial /\
  handleMouseMove e initial = initial /\
  position (run [MouseDown e; MouseMove {| clientX := 90; clientY := 70 |}; MouseUp]
                initial) = origin.
Proof.
  intros e.
  destruct (pan_at_scale_one_is_noop initial (Qeq_refl 1)) as (Hd & Hm & Hg).
  split; [apply Hd | split; [apply Hm |]].
  exact (proj1 (Hg [MouseDown e; MouseMove {| clientX := 90; clientY := 70 |}; MouseUp]
                   eq_refl)).
Defined.

End ViewportFacts.

(* ================================================================== *)
(** * Properties of the ingestion pipeline                             *)
(* ================================================================== *)

Module IngestionFacts.

Import Types DragDropZone.
Local Open Scope nat_scope.

(** ** The synchronous pass *)

Lemma visit_wasti_fold (files : list File) :
  forall b,
    fold_left visit_wasti files b
    = {| newImages := newImages b;
         processedCount := processedCount b
                           + (List.length files - List.length (filter isImage files));
         committed := committed b |}.
Proof.
  induction files as [|f fs IH]; intros b; cbn [fold_left filter].
  - destruct b; cbn. f_equal. lia.
  - rewrite IH. unfold visit_wasti.
    pose proof (filter_length_le isImage fs) as Hle.
    destruct (isImage f); cbn -[Nat.sub]; f_equal; lia.
Qed.

(** In the Nano Banana revision the commit inside the skip branch cannot
    fire during the pass: no [onload] has run yet, so [newImages] is
    still empty. *)
Lemma visit_nano_fold (filesArray : list File) (currentImages : list ImageState)
      (files : list File) :
  forall b,
    newImages b = [] ->
    fold_left (visit_nano filesArray currentImages) files b
    = fold_left visit_wasti files b.
Proof.
  induction files as [|f fs IH]; intros b Hb; cbn [fold_left]; [reflexivity|].
  assert (Hv : visit_nano filesArray currentImages b f = visit_wasti b f).
  { unfold visit_nano, visit_wasti. destruct (negb (isImage f)); [|reflexivity].
    cbn. rewrite Hb. cbn. now rewrite andb_false_r. }
  rewrite Hv. apply IH.
  unfold visit_wasti. now destruct (negb (isImage f)).
Qed.

Lemma processFiles_revisions_agree files currentImages completions :
  processFiles_nano files currentImages completions
  = processFiles_wasti files currentImages completions.
Proof.
  unfold processFiles_nano, processFiles_wasti, processFilesWith.
  destruct (List.length files =? 0); [reflexivity|].
  now rewrite visit_nano_fold.
Qed.

(** ** Indices of the files that are read *)

Lemma imageIndicesFrom_length (files : list File) :
  forall k, List.length (imageIndicesFrom k files) = List.length (filter isImage files).
Proof.
  induction files as [|f fs IH]; intros k; cbn; [reflexivity|].
  destruct (isImage f); cbn; now rewrite IH.
Qed.

Lemma imageIndicesFrom_In (files : list File) :
  forall k i,
    In i (imageIndicesFrom k files) ->
    k <= i /\ exists f, nth_error files (i - k) = Some f /\ isImage f = true.
Proof.
  induction files as [|f fs IH]; intros k i Hin; cbn in Hin; [contradiction|].
  assert (Hrest : In i (imageIndicesFrom (S k) fs) ->
                  k <= i /\ exists f', nth_error (f :: fs) (i - k) = Some f'
                                       /\ isImage f' = true).
  { intros H. destruct (IH _ _ H) as (Hle & f' & Hnth & Himg).
    split; [lia|]. exists f'. split; [|exact Himg].
    replace (i - k) with (S (i - S k)) by lia. exact Hnth. }
  destruct (isImage f) eqn:E; [|now apply Hrest].
  destruct Hin as [<- | Hin]; [|now apply Hrest].
  split; [lia|]. exists f. now rewrite Nat.sub_diag.
Qed.

Lemma imagesAt_indicesFrom (files : list File) :
  forall pre,
    imagesAt (pre ++ files) (imageIndicesFrom (List.length pre) files)
    = validImages files.
Proof.
  induction files as [|f fs IH]; intros pre; cbn; [reflexivity|].
  specialize (IH (pre ++ [f])). rewrite <- app_assoc, length_app in IH.
  cbn in IH. rewrite Nat.add_1_r in IH.
  destruct (isImage f); [|exact IH].
  cbn. rewrite nth_error_app2, Nat.sub_diag by lia. cbn.
  f_equal. exact IH.
Qed.

Lemma imagesAt_imageIndices files :
  imagesAt files (imageIndices files) = validImages files.
Proof. exact (imagesAt_indicesFrom files []). Qed.

Lemma imagesAt_cons files i rest f :
  nth_error files i = Some f ->
  imagesAt files (i :: rest) = toImage f :: imagesAt files rest.
Proof. intros H. unfold imagesAt. cbn. now rewrite H. Qed.

(** ** The completions *)

Lemma complete_fold (files : list File) (currentImages : list ImageState)
      (completions : list nat) :
  forall b,
    Forall (Readable files) completions ->
    processedCount b + List.length completions = List.length files ->
    committed b = [] ->
    completions <> [] ->
    fold_left (complete files currentImages) completions b
    = {| newImages := newImages b ++ imagesAt files completions;
         processedCount := List.length files;
         committed :=
           [currentImages ++ newImages b ++ imagesAt files completions] |}.
Proof.
  induction completions as [|i rest IH]; intros b Hall Hcount Hnone Hne;
    [congruence|].
  inversion Hall as [|? ? (f & Hnth & Himg) Hrest]; subst.
  cbn [fold_left]. unfold complete at 2. rewrite Hnth, Himg.
  rewrite (imagesAt_cons _ _ _ _ Hnth).
  unfold onload. cbn [processedCount incr push newImages].
  cbn [List.length] in Hcount.
  destruct rest as [|j rest'].
  - cbn [List.length] in Hcount.
    replace (S (processedCount b) =? List.length files) with true
      by (symmetry; apply Nat.eqb_eq; lia).
    unfold onImagesChange, incr, push. cbn. rewrite Hnone. cbn.
    f_equal. lia.
  - replace (S (processedCount b) =? List.length files) with false
      by (symmetry; apply Nat.eqb_neq; cbn [List.length] in Hcount; lia).
    remember (j :: rest') as rest eqn:Er.
    rewrite IH.
    + unfold incr, push; cbn [newImages processedCount committed].
      now rewrite <- !app_assoc.
    + assumption.
    + unfold incr, push; cbn [newImages processedCount committed]. lia.
    + exact Hnone.
    + subst rest. discriminate.
Qed.

Lemma Schedule_Readable files completions :
  Schedule files completions -> Forall (Readable files) completions.
Proof.
  intros Hs. apply Forall_forall. intros i Hin.
  apply (Permutation_in _ Hs) in Hin.
  destruct (imageIndicesFrom_In _ _ _ Hin) as (_ & f & Hnth & Himg).
  rewrite Nat.sub_0_r in Hnth. now exists f.
Qed.

Lemma Schedule_length files completions :
  Schedule files completions ->
  List.length completions = List.length (filter isImage files).
Proof.
  intros Hs. rewrite (Permutation_length Hs).
  apply imageIndicesFrom_length.
Qed.

Lemma Schedule_images files completions :
  Schedule files completions ->
  Permutation (imagesAt files completions) (validImages files).
Proof.
  intros Hs. rewrite <- imagesAt_imageIndices.
  unfold imagesAt. now apply Permutation_flat_map.
Qed.

(** What one batch does, for any order in which its readers finish. *)
Lemma processFiles_wasti_spec files currentImages completions :
  Schedule files completions ->
  processFiles_wasti files currentImages completions
  = match completions with
    | [] => {| newImages := [];
               processedCount := if List.length files =? 0 then 0 else List.length files;
               committed := [] |}
    | _ => {| newImages := imagesAt files completions;
              processedCount := List.length files;
              committed := [currentImages ++ imagesAt files completions] |}
    end.
Proof.
  intros Hs. pose proof (Schedule_length _ _ Hs) as Hlen.
  pose proof (filter_length_le isImage files) as Hle.
  unfold processFiles_wasti, processFilesWith.
  destruct (List.length files =? 0) eqn:E.
  - apply Nat.eqb_eq in E. destruct completions; [reflexivity|].
    cbn in Hlen. lia.
  - rewrite visit_wasti_fold. cbn [start newImages processedCount committed].
    destruct completions as [|i rest] eqn:Ec.
    + cbn. cbn in Hlen. f_equal. lia.
    + rewrite <- Ec in *. rewrite complete_fold.
      * cbn. subst completions. reflexivity.
      * now apply Schedule_Readable.
      * cbn. lia.
      * reflexivity.
      * subst completions. discriminate.
Qed.

(** C2, as the code has it.  A batch whose readers all finish commits
    once, when the last reader finishes: the list [currentImages] that
    [processFiles] captured when the batch was submitted, followed by the
    images of the valid files in the order in which their encodes
    completed.  The committed list is K entries longer than the captured
    one, the new entries are the valid files' images up to order, and
    they are in input order when the encodes complete in input order.  A
    batch without a valid image commits nothing.  For the parent this
    means: its list is replaced by the captured list plus the K new
    entries, so it grows by exactly K entries appended after the
    existing ones when it still is the captured list, and is left
    untouched when K = 0.  Both revisions of [processFiles] behave
    alike. *)
Theorem batch_commits_in_completion_order :
  forall (files : list File) (currentImages : list ImageState)
         (completions : list nat),
    Schedule files completions ->
    let K := List.length (filter isImage files) in
    let b := processFiles_nano files currentImages completions in
    let after := sourceImagesAfter currentImages b in
    processFiles_wasti files currentImages completions = b /\
    after = currentImages ++ imagesAt files completions /\
    List.length after = List.length currentImages + K /\
    Permutation (imagesAt files completions) (validImages files) /\
    List.length (committed b) = (if K =? 0 then 0 else 1) /\
    (completions = imageIndices files ->
     after = currentImages ++ validImages files) /\
    (forall parent : App.State,
        let parent' := App.applyCommits (committed b) parent in
        (K = 0 -> parent' = parent) /\
        (K <> 0 ->
         App.sourceImages parent' = currentImages ++ imagesAt files completions) /\
        (App.sourceImages parent = currentImages ->
         App.sourceImages parent'
         = App.sourceImages parent ++ imagesAt files completions
         /\ List.length (App.sourceImages parent')
            = List.length (App.sourceImages parent) + K)).
Proof.
  intros files currentImages completions Hs K b after.
  pose proof (Schedule_length _ _ Hs) as Hlen. fold K in Hlen.
  pose proof (Schedule_images _ _ Hs) as Hperm.
  assert (Hafter : after = currentImages ++ imagesAt files completions).
  { unfold after, b, sourceImagesAfter.
    rewrite processFiles_revisions_agree, processFiles_wasti_spec by exact Hs.
    destruct completions; cbn; [now rewrite app_nil_r | reflexivity]. }
  assert (Hcommitted :
            committed b
            = match completions with
              | [] => []
              | _ => [currentImages ++ imagesAt files completions]
              end).
  { unfold b.
    rewrite processFiles_revisions_agree, processFiles_wasti_spec by exact Hs.
    now destruct completions. }
  split; [|split; [|split; [|split; [|split; [|split]]]]].
  - unfold b. now rewrite processFiles_revisions_agree.
  - exact Hafter.
  - rewrite Hafter, length_app, (Permutation_length Hperm).
    unfold validImages. now rewrite length_map.
  - exact Hperm.
  - unfold b.
    rewrite processFiles_revisions_agree, processFiles_wasti_spec by exact Hs.
    destruct completions; cbn in Hlen; rewrite <- Hlen; reflexivity.
  - intros ->. rewrite Hafter. now rewrite imagesAt_imageIndices.
  - intros parent parent'. unfold parent'. rewrite Hcommitted.
    destruct completions as [|i rest] eqn:Ec.
    + cbn in Hlen. split; [reflexivity|]. split; [congruence|].
      intros Hsame. cbn. rewrite app_nil_r. split; [reflexivity | lia].
    + rewrite <- Ec in *.
      assert (Hafter' : App.sourceImages
                          (App.applyCommits
                             [currentImages ++ imagesAt files completions] parent)
                        = currentImages ++ imagesAt files completions)
        by reflexivity.
      split; [|split].
      * intros HK. rewrite Ec in Hlen. cbn in Hlen. lia.
      * intros _. exact Hafter'.
      * intros Hsame. rewrite Hafter', Hsame. split; [reflexivity|].
        rewrite length_app, (Permutation_length Hperm).
        unfold validImages. rewrite length_map. reflexivity.
Qed.

Lemma batch_commits_in_completion_order_witness :
  let files := [ {| type := "image/png"; result := "data:image/png;base64,AAAA" |};
                 {| type := "text/plain"; result := "data:text/plain;base64,BBBB" |};
                 {| type := "image/jpeg"; result := "data:image/jpeg;base64,CCCC" |} ] in
  let moved := App.setSourceImages
                 [ {| data := "data:image/gif;base64,ZZZZ"; mimeType := "image/gif" |} ]
                 App.initial in
  Schedule files [2; 0] /\
  sourceImagesAfter [] (processFiles_nano files [] [2; 0])
  = [] ++ imagesAt files [2; 0] /\
  App.sourceImages
    (App.applyCommits (committed (processFiles_nano files [] [2; 0])) moved)
  = [] ++ imagesAt files [2; 0].
Proof.
  intros files moved.
  assert (Hs : Schedule files [2; 0]) by apply perm_swap.
  pose proof (batch_commits_in_completion_order files [] [2; 0] Hs)
    as (_ & Hafter & _ & _ & _ & _ & Hparent).
  split; [exact Hs|]. split; [exact Hafter|].
  destruct (Hparent moved) as (_ & Hreplaced & _).
  apply Hreplaced. discriminate.
Defined.

(** C2, as stated, fails: two images whose encodes finish in the opposite
    order are committed in completion order, not in input order. *)
Lemma completion_order_counterexample :
  let a := {| type := "image/png"; result := "data:image/png;base64,AAAA" |} in
  let b := {| type := "image/jpeg"; result := "data:image/jpeg;base64,BBBB" |} in
  Schedule [a; b] [1; 0] /\
  validImages [a; b] = [toImage a; toImage b] /\
  sourceImagesAfter [] (processFiles_nano [a; b] [] [1; 0])
  = [toImage b; toImage a] /\
  sourceImagesAfter [] (processFiles_wasti [a; b] [] [1; 0])
  = [toImage b; toImage a] /\
  ~ CommitsInInputOrder processFiles_nano /\
  ~ CommitsInInputOrder processFiles_wasti.
Proof.
  intros a b.
  assert (Hs : Schedule [a; b] [1; 0]) by apply perm_swap.
  split; [exact Hs|]. split; [reflexivity|].
  split; [reflexivity|]. split; [reflexivity|].
  split; intros H; specialize (H [a; b] [] [1; 0] Hs); discriminate H.
Qed.

End IngestionFacts.

(* ================================================================== *)
(** * Properties of the string primitives                              *)
(* ================================================================== *)

Module JSFacts.

Import JS.
Local Open Scope string_scope.

Lemma prefix_split (p : string) :
  forall s, String.prefix p s = true -> s = p ++ slice (String.length p) s.
Proof.
  induction p as [|a p IH]; intros s H; [reflexivity|].
  destruct s as [|b s]; cbn in H; [discriminate|].
  destruct (ascii_dec a b) as [->|]; [|discriminate].
  cbn. f_equal. now apply IH.
Qed.

Lemma prefix_app (p s : string) : String.prefix p (p ++ s) = true.
Proof.
  induction p as [|a p IH]; cbn; [now destruct s|].
  destruct (ascii_dec a a); [exact IH | congruence].
Qed.

Lemma slice_app (p s : string) : slice (String.length p) (p ++ s) = s.
Proof. induction p as [|a p IH]; cbn; [reflexivity | exact IH]. Qed.

Lemma span_sound (u : string) :
  forall t r,
    spanNotSemicolon u = (t, r) ->
    u = t ++ r /\ noSemicolon t = true.
Proof.
  induction u as [|c u IH]; intros t r H; cbn in H.
  - inversion H; subst. now split.
  - destruct (c =? ";")%char eqn:E.
    + inversion H; subst. now split.
    + destruct (spanNotSemicolon u) as [t' r'] eqn:Es.
      destruct (IH t' r' eq_refl) as [Hu Hn].
      inversion H; subst t r.
      split; [cbn; now rewrite <- Hu|]. cbn. now rewrite E, Hn.
Qed.

Lemma span_tag (t : string) :
  forall rest,
    noSemicolon t = true ->
    spanNotSemicolon (t ++ ";" ++ rest) = (t, ";" ++ rest).
Proof.
  induction t as [|c t IH]; intros rest Hn; cbn in *; [reflexivity|].
  apply andb_prop in Hn as [Hc Hn].
  apply negb_true_iff in Hc. rewrite Hc.
  now rewrite (IH rest Hn).
Qed.

Lemma truthy_nonempty (s : string) : truthy s = true <-> s <> "".
Proof.
  unfold truthy. rewrite negb_true_iff. apply String.eqb_neq.
Qed.

Lemma matchDataTagHere_tag (t rest : string) :
  t <> "" -> noSemicolon t = true ->
  matchDataTagHere ("data:" ++ t ++ ";" ++ rest) = Some t.
Proof.
  intros Ht Hn. unfold matchDataTagHere.
  rewrite prefix_app.
  replace (slice 5 ("data:" ++ t ++ ";" ++ rest)) with (t ++ ";" ++ rest)
    by (symmetry; exact (slice_app "data:" (t ++ ";" ++ rest))).
  rewrite (span_tag t rest Hn).
  apply truthy_nonempty in Ht. rewrite Ht.
  now rewrite (prefix_app ";" rest).
Qed.

Lemma matchDataTagHere_sound (s t : string) :
  matchDataTagHere s = Some t ->
  exists rest, s = "data:" ++ t ++ ";" ++ rest
               /\ t <> "" /\ noSemicolon t = true.
Proof.
  unfold matchDataTagHere. intros H.
  destruct (String.prefix "data:" s) eqn:Ep; [|discriminate].
  apply prefix_split in Ep.
  destruct (spanNotSemicolon (slice 5 s)) as [g r] eqn:Es.
  destruct (truthy g) eqn:Eg; [|discriminate].
  destruct (String.prefix ";" r) eqn:Er; [|discriminate].
  cbn in H. inversion H; subst g.
  destruct (span_sound _ _ _ Es) as [Hu Hn].
  apply prefix_split in Er. cbn in Er.
  exists (slice 1 r). split; [|split].
  - rewrite Ep at 1. cbn [String.length]. rewrite Hu at 1.
    rewrite Er at 1. reflexivity.
  - now apply truthy_nonempty.
  - exact Hn.
Qed.

Lemma matchDataTag_unfold (s : string) :
  matchDataTag s
  = match matchDataTagHere s with
    | Some t => Some t
    | None => match s with
              | "" => None
              | String _ s' => matchDataTag s'
              end
    end.
Proof. destruct s; reflexivity. Qed.

(** A match yields a tag that the payload carries. *)
Lemma matchDataTag_sound (s : string) :
  forall t, matchDataTag s = Some t -> CarriesTag s t.
Proof.
  induction s as [|c s IH]; intros t H; rewrite matchDataTag_unfold in H.
  - destruct (matchDataTagHere "") eqn:E; [|discriminate].
    inversion H; subst. destruct (matchDataTagHere_sound _ _ E) as (r & Hs & Ht).
    exists "", r. now split.
  - destruct (matchDataTagHere (String c s)) eqn:E.
    + inversion H; subst. destruct (matchDataTagHere_sound _ _ E) as (r & Hs & Ht).
      exists "", r. now split.
    + destruct (IH _ H) as (before & r & Hs & Ht).
      exists (String c before), r. split; [|exact Ht]. cbn. now rewrite Hs.
Qed.

(** A payload that carries a tag matches. *)
Lemma matchDataTag_complete (s t : string) :
  CarriesTag s t -> exists t', matchDataTag s = Some t'.
Proof.
  intros (before & rest & -> & Ht & Hn).
  induction before as [|c before IH]; rewrite matchDataTag_unfold.
  - change ("" ++ "data:" ++ t ++ ";" ++ rest) with ("data:" ++ t ++ ";" ++ rest).
    rewrite (matchDataTagHere_tag t rest Ht Hn). now exists t.
  - destruct (matchDataTagHere _) as [t'|]; [now exists t'|].
    exact IH.
Qed.

(** At the start of a data URL the match is the URL's own tag. *)
Lemma matchDataTag_dataUrl (t rest : string) :
  t <> "" -> noSemicolon t = true ->
  matchDataTag ("data:" ++ t ++ ";" ++ rest) = Some t.
Proof.
  intros Ht Hn. rewrite matchDataTag_unfold.
  now rewrite (matchDataTagHere_tag t rest Ht Hn).
Qed.

Lemma orElse_truthy (m : option string) (fallback : string) :
  fallback <> "" -> orElse m fallback <> "".
Proof.
  intros Hf. unfold orElse. destruct m as [s|]; [|exact Hf].
  destruct (truthy s) eqn:E; [now apply truthy_nonempty | exact Hf].
Qed.

Lemma orElse_Some_truthy (s fallback : string) :
  s <> "" -> orElse (Some s) fallback = s.
Proof.
  intros Hs. unfold orElse. apply truthy_nonempty in Hs. now rewrite Hs.
Qed.

End JSFacts.

(* ================================================================== *)
(** * Properties of the generation client                              *)
(* ================================================================== *)

Module GeminiFacts.

Import Types Gemini.
Local Open Scope string_scope.

Lemma isSpecialRatio_spec (opts : GenerateOptions) :
  Wasti.isSpecialRatio opts = false <-> In (ratioOf opts) SUPPORTED_ASPECT_RATIOS.
Proof.
  unfold Wasti.isSpecialRatio. rewrite negb_false_iff, existsb_exists.
  split.
  - intros (r & Hin & Heq). apply String.eqb_eq in Heq. now subst.
  - intros Hin. exists (ratioOf opts). split; [exact Hin | apply String.eqb_refl].
Qed.

(** C10.  The Wasti revision of the client wrapper passes a supported
    aspect ratio through unchanged; for any other ratio it puts "21:9"
    in the image config and appends to the system instruction the
    ultra-wide panoramic request that names the ratio asked for. *)
Theorem unsupported_ratio_becomes_21_9 :
  forall (opts : GenerateOptions),
    let ratio := ratioOf opts in
    let req := fst (Wasti.generateOrEditImage opts) in
    (In ratio ["1:1"; "2:3"; "3:2"; "3:4"; "4:3"; "4:5"; "5:4"; "9:16"; "16:9"; "21:9"]
     -> imageConfig_aspectRatio req = ratio
        /\ systemInstruction req = BASE_INSTRUCTION)
    /\
    (~ In ratio ["1:1"; "2:3"; "3:2"; "3:4"; "4:3"; "4:5"; "5:4"; "9:16"; "16:9"; "21:9"]
     -> imageConfig_aspectRatio req = "21:9"
        /\ systemInstruction req
           = BASE_INSTRUCTION
             ++ " Special formatting request: The user wants an ultra-wide panoramic aspect ratio of "
             ++ ratio
             ++ ". Since the canvas is limited to 21:9, ensure the composition is cinematic and uses the full horizontal width for an ultra-wide feel.").
Proof.
  intros opts ratio req.
  change (imageConfig_aspectRatio req) with (Wasti.configRatio opts).
  change (systemInstruction req) with (Wasti.instructionOf opts).
  unfold Wasti.configRatio, Wasti.instructionOf.
  fold SUPPORTED_ASPECT_RATIOS. fold ratio.
  pose proof (isSpecialRatio_spec opts) as Hspec. fold ratio in Hspec.
  destruct (Wasti.isSpecialRatio opts); split; intros Hin.
  - apply Hspec in Hin. discriminate.
  - split; reflexivity.
  - split; reflexivity.
  - exfalso. apply Hin. now apply Hspec.
Qed.

Lemma unsupported_ratio_becomes_21_9_witness :
  let wide := {| prompt := "a skyline"; sourceImages := Some [];
                 aspectRatio := Some "10:1" |} in
  let tall := {| prompt := "a tower"; sourceImages := Some [];
                 aspectRatio := Some "9:16" |} in
  imageConfig_aspectRatio (fst (Wasti.generateOrEditImage wide)) = "21:9"
  /\ imageConfig_aspectRatio (fst (Wasti.generateOrEditImage tall)) = "9:16".
Proof.
  intros wide tall. split.
  - refine (proj1 (proj2 (unsupported_ratio_becomes_21_9 wide) _)).
    cbn. intros H.
    repeat (destruct H as [H|H]; [discriminate H|]). exact H.
  - refine (proj1 (proj1 (unsupported_ratio_becomes_21_9 tall) _)).
    cbn. tauto.
Defined.

(** The Nano Banana revision has no ratio table: the hint is sent as is. *)
Lemma nano_ratio_passthrough (opts : GenerateOptions) :
  imageConfig_aspectRatio (fst (NanoBanana.generateOrEditImage opts)) = ratioOf opts
  /\ systemInstruction (fst (NanoBanana.generateOrEditImage opts)) = BASE_INSTRUCTION.
Proof. now split. Qed.

(** ** How the returned promise settles *)

Lemma rethrow_message (m : option string) :
  exists msg, rethrow m = Rejected msg /\ msg <> "".
Proof.
  unfold rethrow. eexists; split; [reflexivity|].
  apply JSFacts.orElse_truthy. discriminate.
Qed.

Lemma settle_rejected_nonempty (o : Outcome) (msg : string) :
  settle o = Rejected msg -> msg <> "".
Proof.
  intros H. destruct o as [m|r]; cbn in H.
  - destruct (rethrow_message m) as (msg' & E & Hne). congruence.
  - destruct (parseResponse r) as [u|m]; [discriminate|].
    destruct (rethrow_message (Some m)) as (msg' & E & Hne). congruence.
Qed.

Lemma settle_transport_error (m : option string) :
  settle (Failed m) = Rejected (JS.orElse m "Failed to process image request.").
Proof. reflexivity. Qed.

Lemma settle_text_instead_of_image (r : Response) (t : string) :
  TextInsteadOfImage r t ->
  settle (Answered r) = Rejected ("Model returned text instead of image: " ++ t).
Proof.
  intros (c & cs & ct & ps & Hc & Hct & Hps & Himg & Htxt).
  cbn. unfold parseResponse. now rewrite Hc, Hct, Hps, Himg, Htxt.
Qed.

Lemma settle_image (r : Response) (c : Candidate) cs ct ps b :
  candidates r = Some (c :: cs) -> content c = Some ct ->
  content_parts ct = Some ps -> firstInlineData ps = Some b ->
  settle (Answered r) = Fulfilled (dataUrlOf b).
Proof.
  intros Hc Hct Hps Himg. cbn. unfold parseResponse.
  now rewrite Hc, Hct, Hps, Himg.
Qed.

(** ** Failures, seen from the response *)

Lemma parseResponse_firstParts (r : Response) :
  parseResponse r
  = match firstParts r with
    | Some ps =>
        match firstInlineData ps with
        | Some b => inl (dataUrlOf b)
        | None =>
            match firstText ps with
            | Some t => inr ("Model returned text instead of image: " ++ t)
            | None => inr NO_IMAGE
            end
        end
    | None => inr NO_IMAGE
    end.
Proof.
  unfold parseResponse, firstParts.
  destruct (candidates r) as [[|c cs]|]; try reflexivity.
  destruct (content c) as [ct|]; reflexivity.
Qed.

Lemma no_image_part (ps : list ResponsePart) :
  Forall (fun q => inlineData q = None) ps -> firstInlineData ps = None.
Proof.
  induction 1 as [|q ps Hq _ IH]; cbn; [reflexivity|]. now rewrite Hq.
Qed.

Lemma first_text_part (before : list ResponsePart) :
  forall p after t,
    Forall (fun q => text q = None \/ text q = Some "") before ->
    text p = Some t -> t <> "" ->
    firstText (before ++ p :: after)%list = Some t.
Proof.
  induction before as [|q before IH]; intros p after t Hall Hp Ht; cbn.
  - rewrite Hp. apply JSFacts.truthy_nonempty in Ht. now rewrite Ht.
  - inversion Hall as [|? ? Hq Hrest]; subst.
    destruct Hq as [-> | ->]; cbn; now apply IH.
Qed.

(** A response that holds no image makes the client reject. *)
Lemma no_image_rejects (r : Response) :
  HoldsNoImage r -> exists m, parseResponse r = inr m.
Proof.
  unfold HoldsNoImage. rewrite parseResponse_firstParts.
  destruct (firstParts r) as [ps|]; [|now eexists].
  intros H. rewrite (no_image_part ps H).
  destruct (firstText ps); now eexists.
Qed.

Lemma text_answer_rejects (r : Response) (t : string) :
  AnswersWithText r t ->
  HoldsNoImage r
  /\ settle (Answered r)
     = Rejected ("Model returned text instead of image: " ++ t).
Proof.
  intros (before & p & after & Hps & Himg & Hblank & Hp & Ht).
  split.
  - unfold HoldsNoImage. now rewrite Hps.
  - cbn. rewrite parseResponse_firstParts, Hps, (no_image_part _ Himg).
    now rewrite (first_text_part before p after t Hblank Hp Ht).
Qed.

End GeminiFacts.

(* ================================================================== *)
(** * Properties of the application component                          *)
(* ================================================================== *)

Module AppFacts.

Import Types App.
Local Open Scope string_scope.

(** ** Submitting *)

Lemma buttonDisabled_busy (s : State) :
  isLoading s = true -> buttonDisabled s = true.
Proof. intros H. unfold buttonDisabled. rewrite H. apply orb_true_r. Qed.

(** C3.  While the busy flag is set, every way of submitting does
    nothing and dispatches nothing: the guarded [handleGenerate] of the
    Wasti revision, reached from the button or from the Enter key, and
    the submit button of the Nano Banana revision, which is disabled. *)
Theorem submit_while_busy_is_noop :
  forall (s : State),
    isLoading s = true ->
    Wasti.handleGenerate s = (s, None)
    /\ Wasti.clickSubmit s = (s, None)
    /\ (forall e : KeyboardEvent, Wasti.handleKeyDown e s = (s, None))
    /\ NanoBanana.clickSubmit s = (s, None).
Proof.
  intros s Hbusy.
  assert (Hg : Wasti.handleGenerate s = (s, None)).
  { unfold Wasti.handleGenerate. now rewrite Hbusy, orb_true_r. }
  repeat split.
  - exact Hg.
  - unfold Wasti.clickSubmit. now rewrite (buttonDisabled_busy s Hbusy).
  - intros e. unfold Wasti.handleKeyDown. rewrite Hg.
    now destruct (_ && _).
  - unfold NanoBanana.clickSubmit. now rewrite (buttonDisabled_busy s Hbusy).
Qed.

Lemma submit_while_busy_is_noop_witness :
  let s := setIsLoading true (setPrompt "a red balloon" initial) in
  Wasti.handleGenerate s = (s, None) /\ NanoBanana.clickSubmit s = (s, None).
Proof.
  intros s.
  destruct (submit_while_busy_is_noop s eq_refl) as (Hg & _ & _ & Hn).
  now split.
Defined.

(** In the Nano Banana revision the guard is the disabled button alone:
    [handleGenerate] itself does not look at the flag. *)
Lemma nano_handleGenerate_unguarded :
  let s := setIsLoading true (setPrompt "a red balloon" initial) in
  snd (NanoBanana.handleGenerate s) <> None.
Proof. intros s. discriminate. Qed.

Lemma afterAwait_not_loading s0 settled clk st :
  isLoading (afterAwait s0 settled clk st) = false.
Proof. reflexivity. Qed.

Lemma dispatch_resume gen (s : State) :
  exists p, dispatch gen s = (setError None (setIsLoading true s), Some p)
            /\ forall clk o st, isLoading (resume p clk o st) = false.
Proof.
  unfold dispatch. destruct (gen _) as [req settle].
  eexists; split; [reflexivity|]. intros; reflexivity.
Qed.

Lemma Admission_launched (c : Config) (r : State * option Pending) gen :
  Admission c ->
  r = (ui c, None)
  \/ (isLoading (ui c) = false /\ r = dispatch gen (ui c)) ->
  Admission (launched c r).
Proof.
  intros [Hall Hflag] [-> | [Hidle ->]].
  - destruct c; exact (conj Hall Hflag).
  - destruct Hflag as [[Hb _] | [_ Hnone]]; [congruence|].
    destruct (dispatch_resume gen (ui c)) as (p & -> & Hp).
    unfold launched, Admission; cbn. rewrite Hnone. cbn.
    split; [repeat constructor; exact Hp | left; now split].
Qed.

Lemma Admission_local (f : State -> State) (c : Config) :
  (forall s, isLoading (f s) = isLoading s) ->
  Admission c -> Admission (local f c).
Proof.
  intros Hf [Hall Hflag]. unfold Admission, local; cbn.
  rewrite Hf. now split.
Qed.

Lemma Admission_settles clk o (c : Config) :
  Admission c -> Admission (settles clk o c).
Proof.
  intros [Hall Hflag]. unfold settles.
  destruct (inflight c) as [|p rest] eqn:E; [unfold Admission; now rewrite E|].
  inversion Hall as [|? ? Hp Hrest]; subst.
  destruct Hflag as [[_ Hone] | [_ Hnone]]; [|discriminate].
  destruct rest; [|discriminate].
  unfold Admission; cbn. split; [constructor | right; now split].
Qed.

Lemma wasti_handleGenerate_cases (s : State) :
  Wasti.handleGenerate s = (s, None)
  \/ (isLoading s = false
      /\ Wasti.handleGenerate s = dispatch Gemini.Wasti.generateOrEditImage s).
Proof.
  unfold Wasti.handleGenerate.
  destruct (blank (prompt s)); cbn; [now left|].
  destruct (isLoading s); [now left | now right].
Qed.

Lemma Admission_step_wasti (c : Config) (ev : Event) :
  Admission c -> Admission (step_wasti c ev).
Proof.
  intros HA. destruct ev; cbn [step_wasti];
    try exact HA;
    try (apply Admission_local; [intros s; reflexivity | exact HA]).
  - apply Admission_launched with (gen := Gemini.Wasti.generateOrEditImage);
      [exact HA|].
    unfold Wasti.clickSubmit. destruct (buttonDisabled (ui c)); [now left|].
    apply wasti_handleGenerate_cases.
  - apply Admission_launched with (gen := Gemini.Wasti.generateOrEditImage);
      [exact HA|].
    unfold Wasti.handleKeyDown. destruct (_ && _); [|now left].
    apply wasti_handleGenerate_cases.
  - now apply Admission_settles.
Qed.

Lemma Admission_step_nano (c : Config) (ev : Event) :
  Admission c -> Admission (step_nano c ev).
Proof.
  intros HA. destruct ev; cbn [step_nano];
    try exact HA;
    try (apply Admission_local; [intros s; reflexivity | exact HA]).
  - apply Admission_launched with (gen := Gemini.NanoBanana.generateOrEditImage);
      [exact HA|].
    unfold NanoBanana.clickSubmit, buttonDisabled, NanoBanana.handleGenerate.
    destruct (blank (prompt (ui c))); cbn; [now left|].
    destruct (isLoading (ui c)); cbn; [now left | now right].
  - apply Admission_local; [|exact HA].
    intros s. unfold NanoBanana.handleRestoreHistory.
    now destruct (Types.sourceImages item) as [[|d ds]|].
  - apply Admission_local; [|exact HA].
    intros s. unfold NanoBanana.handleUseAsReference.
    now destruct (generatedImage s).
  - now apply Admission_settles.
Qed.

(** The temporal reading of C3: along every run of either revision at
    most one generation is in flight, and one is in flight exactly while
    the busy flag is set. *)
Lemma one_generation_in_flight (evs : list Event) :
  Admission (run step_wasti evs) /\ Admission (run step_nano evs).
Proof.
  assert (Hboot : Admission boot).
  { split; [constructor | right; now split]. }
  unfold run. revert Hboot. generalize boot.
  induction evs as [|ev evs IH]; intros c HA; cbn.
  - split; exact HA.
  - split.
    + apply (IH (step_wasti c ev)). now apply Admission_step_wasti.
    + apply (IH (step_nano c ev)). now apply Admission_step_nano.
Qed.

(** ** Generating *)

Lemma handleGenerate_pending (s : State) (p : Pending) :
  snd (Wasti.handleGenerate s) = Some p
  \/ snd (NanoBanana.handleGenerate s) = Some p ->
  (forall clk o st,
      resume p clk o st = afterAwait s (Gemini.settle o) clk st)
  /\ call p = {| Gemini.prompt := prompt s;
                 Gemini.sourceImages := Some (sourceImages s);
                 Gemini.aspectRatio := Some (aspectRatio s) |}
  /\ (request p = Gemini.Wasti.buildRequest (call p)
      \/ request p = Gemini.NanoBanana.buildRequest (call p)).
Proof.
  unfold Wasti.handleGenerate, NanoBanana.handleGenerate.
  intros [H | H].
  - destruct (blank (prompt s) || isLoading s); [discriminate|].
    cbn in H. inversion H; subst p. cbn. repeat split; auto.
  - destruct (blank (prompt s)); [discriminate|].
    cbn in H. inversion H; subst p. cbn. repeat split; auto.
Qed.

(** C4.  With the prompt "a red balloon", no source image and the ratio
    "1:1", every way of submitting calls the generation client with
    exactly that prompt, an empty image list and that ratio (the request
    built from it carries no image part and the ratio "1:1"); and when
    the call succeeds the history starts with an entry whose prompt is
    "a red balloon" and whose source images are empty. *)
Theorem red_balloon_end_to_end :
  forall (s : State),
    prompt s = "a red balloon" ->
    sourceImages s = [] ->
    aspectRatio s = "1:1" ->
    isLoading s = false ->
    forall submit,
      In submit [Wasti.clickSubmit; Wasti.handleGenerate;
                 Wasti.handleKeyDown {| key := "Enter"; shiftKey := false |};
                 NanoBanana.clickSubmit; NanoBanana.handleGenerate] ->
      exists p,
        snd (submit s) = Some p
        /\ call p = {| Gemini.prompt := "a red balloon";
                       Gemini.sourceImages := Some [];
                       Gemini.aspectRatio := Some "1:1" |}
        /\ Gemini.imageParts (call p) = []
        /\ Gemini.imageConfig_aspectRatio (request p) = "1:1"
        /\ forall clk o st dataUrl,
             Gemini.settle o = Gemini.Fulfilled dataUrl ->
             exists item,
               history (resume p clk o st) = item :: history st
               /\ Types.prompt item = "a red balloon"
               /\ Types.sourceImages item = Some []
               /\ url item = dataUrl.
Proof.
  intros s Hp Hi Hr Hl submit Hin.
  assert (Hb : blank (prompt s) = false) by now rewrite Hp.
  assert (Hs : submit s = dispatch Gemini.Wasti.generateOrEditImage s
               \/ submit s = dispatch Gemini.NanoBanana.generateOrEditImage s).
  { cbn in Hin.
    destruct Hin as [<-|[<-|[<-|[<-|[<-|[]]]]]];
      unfold Wasti.clickSubmit, Wasti.handleKeyDown, Wasti.handleGenerate,
        NanoBanana.clickSubmit, NanoBanana.handleGenerate, buttonDisabled;
      rewrite ?Hb, ?Hl; cbn; auto. }
  assert (Hres : forall gen,
             exists p, dispatch gen s = (setError None (setIsLoading true s), Some p)
                       /\ call p = {| Gemini.prompt := "a red balloon";
                                      Gemini.sourceImages := Some [];
                                      Gemini.aspectRatio := Some "1:1" |}
                       /\ request p = fst (gen (call p))
                       /\ forall clk o st,
                            resume p clk o st
                            = afterAwait s (snd (gen (call p)) o) clk st).
  { intros gen. unfold dispatch. rewrite Hp, Hi, Hr.
    destruct (gen _) as [req settle] eqn:E.
    eexists; split; [reflexivity|]. cbn. rewrite E. repeat split. }
  assert (Hok : forall clk st dataUrl,
             exists item,
               history (afterAwait s (Gemini.Fulfilled dataUrl) clk st)
               = item :: history st
               /\ Types.prompt item = "a red balloon"
               /\ Types.sourceImages item = Some []
               /\ url item = dataUrl).
  { intros clk st dataUrl. eexists; split; [reflexivity|].
    cbn. rewrite Hp, Hi. repeat split. }
  destruct Hs as [Hs | Hs]; rewrite Hs;
    [destruct (Hres Gemini.Wasti.generateOrEditImage) as (p & -> & Hc & Hq & Hk)
    |destruct (Hres Gemini.NanoBanana.generateOrEditImage) as (p & -> & Hc & Hq & Hk)];
    exists p; (split; [reflexivity|]); (split; [exact Hc|]);
    rewrite Hq, Hc; (split; [reflexivity|]); (split; [reflexivity|]);
    intros clk o st dataUrl Hf; rewrite Hk, Hc; cbn [snd
      Gemini.Wasti.generateOrEditImage Gemini.NanoBanana.generateOrEditImage];
    rewrite Hf; apply Hok.
Qed.

Lemma red_balloon_end_to_end_witness :
  let s := setPrompt "a red balloon" initial in
  exists p,
    snd (Wasti.clickSubmit s) = Some p
    /\ call p = {| Gemini.prompt := "a red balloon";
                   Gemini.sourceImages := Some [];
                   Gemini.aspectRatio := Some "1:1" |}.
Proof.
  intros s.
  destruct (red_balloon_end_to_end s eq_refl eq_refl eq_refl eq_refl
              Wasti.clickSubmit (or_introl eq_refl)) as (p & Hp & Hc & _).
  exists p. now split.
Defined.

(** Inside the client the text handed to the model is the prompt with
    the generation request put in front of it. *)
Lemma red_balloon_text_part :
  Gemini.requestParts {| Gemini.prompt := "a red balloon";
                         Gemini.sourceImages := Some [];
                         Gemini.aspectRatio := Some "1:1" |}
  = [Gemini.TextPart "Generate an image of a red balloon"].
Proof. reflexivity. Qed.

Lemma text_response_fails (r : Gemini.Response) (t : string) :
  Gemini.TextInsteadOfImage r t -> Gemini.CallFails (Gemini.Answered r).
Proof.
  intros (c & cs & ct & ps & Hc & Hct & Hps & Himg & Htxt).
  cbn. unfold Gemini.parseResponse. rewrite Hc, Hct, Hps, Himg, Htxt.
  now eexists.
Qed.

Lemma CallFails_settle (o : Gemini.Outcome) :
  Gemini.CallFails o ->
  exists message, Gemini.settle o = Gemini.Rejected message /\ message <> "".
Proof.
  intros Hf.
  assert (H : exists message, Gemini.settle o = Gemini.Rejected message).
  { destruct o as [m|r]; cbn in *; [now eexists|].
    destruct Hf as (m & ->). now eexists. }
  destruct H as (message & H). exists message. split; [exact H|].
  exact (GeminiFacts.settle_rejected_nonempty o message H).
Qed.

Lemma RemoteFailure_settle (o : Gemini.Outcome) :
  Gemini.RemoteFailure o ->
  exists message, Gemini.settle o = Gemini.Rejected message /\ message <> "".
Proof.
  intros Hf. apply CallFails_settle.
  destruct o as [m|r]; cbn in *; [exact I|].
  now apply GeminiFacts.no_image_rejects.
Qed.

(** C6.  When the remote call fails (it is rejected, or it is answered
    by a response that holds no image, for instance one that holds text
    instead), the pending [handleGenerate] of either revision stores
    exactly one non-empty message in [error], clears the busy flag and
    changes nothing else: the displayed image, the history, the prompt
    and the source images are as they were, and no new call is in
    flight.  A text answer is reported with its text, and a rejection
    with a message is reported with that message. *)
Theorem generation_failure_sets_one_error :
  forall (o : Gemini.Outcome),
    Gemini.RemoteFailure o ->
    forall (s : State) (p : Pending),
      snd (Wasti.handleGenerate s) = Some p
      \/ snd (NanoBanana.handleGenerate s) = Some p ->
      forall (clk : Clock) (st : State),
        let st' := resume p clk o st in
        exists message,
          message <> ""
          /\ st' = setIsLoading false (setError (Some message) st)
          /\ error st' = Some message
          /\ generatedImage st' = generatedImage st
          /\ history st' = history st
          /\ (forall rest, inflight (settles clk o {| ui := st; inflight := p :: rest |})
                           = rest)
          /\ (forall r t, o = Gemini.Answered r -> Gemini.AnswersWithText r t ->
                          message = "Model returned text instead of image: " ++ t)
          /\ (forall r t, o = Gemini.Answered r -> Gemini.TextInsteadOfImage r t ->
                          message = "Model returned text instead of image: " ++ t)
          /\ (forall m, o = Gemini.Failed (Some m) -> m <> "" -> message = m).
Proof.
  intros o Hf s p Hp clk st st'.
  destruct (handleGenerate_pending s p Hp) as (Hk & _ & _).
  destruct (RemoteFailure_settle o Hf) as (message & Hs & Hne).
  exists message.
  assert (Hst : st' = setIsLoading false (setError (Some message) st)).
  { unfold st'. rewrite Hk, Hs. unfold afterAwait.
    now rewrite (JSFacts.orElse_Some_truthy message _ Hne). }
  split; [exact Hne|]. split; [exact Hst|].
  rewrite Hst. repeat split.
  - intros r t -> Ht.
    rewrite (proj2 (GeminiFacts.text_answer_rejects r t Ht)) in Hs.
    congruence.
  - intros r t -> Ht.
    rewrite (GeminiFacts.settle_text_instead_of_image r t Ht) in Hs.
    congruence.
  - intros m -> Hm. cbn in Hs. unfold Gemini.rethrow in Hs.
    rewrite (JSFacts.orElse_Some_truthy m _ Hm) in Hs. congruence.
Qed.

Lemma generation_failure_sets_one_error_witness :
  let refusal := {| Gemini.inlineData := None;
                    Gemini.text := Some "I cannot draw that." |} in
  let o := Gemini.Answered
             {| Gemini.candidates :=
                  Some [ {| Gemini.content :=
                              Some {| Gemini.content_parts := Some [refusal] |} |} ] |} in
  let s := setPrompt "a red balloon" initial in
  let clk := {| nowText := "0"; randomSuffix := "x"; now := 0 |} in
  exists p,
    snd (Wasti.handleGenerate s) = Some p
    /\ error (resume p clk o (setIsLoading true s))
       = Some "Model returned text instead of image: I cannot draw that."
    /\ generatedImage (resume p clk o (setIsLoading true s)) = None
    /\ history (resume p clk o (setIsLoading true s)) = [].
Proof.
  intros refusal o s clk.
  destruct (Wasti.handleGenerate s) as [s1 [p|]] eqn:E; [|discriminate E].
  exists p. split; [reflexivity|].
  assert (Hp : snd (Wasti.handleGenerate s) = Some p) by now rewrite E.
  assert (Hfail : Gemini.RemoteFailure o).
  { cbn. constructor; [reflexivity | constructor]. }
  assert (Htext : Gemini.AnswersWithText
                    {| Gemini.candidates :=
                         Some [ {| Gemini.content :=
                                     Some {| Gemini.content_parts := Some [refusal] |} |} ] |}
                    "I cannot draw that.").
  { exists [], refusal, []. cbn. repeat split.
    - constructor; [reflexivity | constructor].
    - constructor.
    - discriminate. }
  destruct (generation_failure_sets_one_error o Hfail s p (or_introl Hp)
              clk (setIsLoading true s))
    as (message & _ & _ & He & Hg & Hh & _ & Hm & _).
  split; [|split].
  - rewrite He. f_equal. exact (Hm _ "I cannot draw that." eq_refl Htext).
  - exact Hg.
  - exact Hh.
Defined.

(** ** Restoring from the history *)

Lemma restored_sourceImages (item : GeneratedImage) (s : State) payloads :
  Types.sourceImages item = Some payloads ->
  sourceImages (NanoBanana.handleRestoreHistory item s)
  = map NanoBanana.restoreImage payloads.
Proof.
  intros H. unfold NanoBanana.handleRestoreHistory. rewrite H.
  now destruct payloads.
Qed.

Lemma restoreImage_tagged (payload tag : string) :
  JS.CarriesTag payload tag ->
  JS.matchDataTag payload = Some (mimeType (NanoBanana.restoreImage payload))
  /\ JS.CarriesTag payload (mimeType (NanoBanana.restoreImage payload)).
Proof.
  intros Hc. destruct (JSFacts.matchDataTag_complete _ _ Hc) as (t' & Hm).
  unfold NanoBanana.restoreImage. rewrite Hm. cbn.
  split; [reflexivity | now apply JSFacts.matchDataTag_sound].
Qed.

(** C5.  Restoring a history entry gives back its source images, each
    with its own payload and with the media type read from that payload:
    for a payload that carries a data-URL type tag, the tag the regular
    expression finds in it; for a data URL, the type the URL declares,
    whatever it is. *)
Theorem restore_reads_media_type_from_payload :
  forall (item : GeneratedImage) (s : State) (payloads : list string),
    Types.sourceImages item = Some payloads ->
    let restored := sourceImages (NanoBanana.handleRestoreHistory item s) in
    map data restored = payloads
    /\ Forall (fun img =>
                 forall tag, JS.CarriesTag (data img) tag ->
                             JS.CarriesTag (data img) (mimeType img))
              restored
    /\ Forall (fun img =>
                 forall tag rest,
                   data img = "data:" ++ tag ++ ";" ++ rest ->
                   tag <> "" -> JS.noSemicolon tag = true ->
                   mimeType img = tag)
              restored.
Proof.
  intros item s payloads Hsrc restored.
  unfold restored. rewrite (restored_sourceImages item s payloads Hsrc).
  split; [|split].
  - rewrite map_map. cbn. apply map_id.
  - apply Forall_map, Forall_forall. intros payload _ tag Hc.
    exact (proj2 (restoreImage_tagged payload tag Hc)).
  - apply Forall_map, Forall_forall. intros payload _ tag rest Hd Ht Hn.
    unfold NanoBanana.restoreImage in *. cbn [data mimeType] in *.
    rewrite Hd. now rewrite (JSFacts.matchDataTag_dataUrl tag rest Ht Hn).
Qed.

Lemma restore_reads_media_type_from_payload_witness :
  let item := {| id := "1x"; url := "data:image/png;base64,RRRR";
                 Types.prompt := "merge these";
                 Types.sourceImages := Some ["data:image/jpeg;base64,AAAA";
                                             "data:image/webp;base64,BBBB"];
                 timestamp := 0 |} in
  Forall (fun img => data img = "data:image/jpeg;base64,AAAA" ->
                     mimeType img = "image/jpeg")
         (sourceImages (NanoBanana.handleRestoreHistory item initial)).
Proof.
  intros item.
  pose proof (restore_reads_media_type_from_payload item initial _ eq_refl)
    as (_ & _ & Htag).
  eapply Forall_impl; [|exact Htag].
  intros img H Hd.
  apply (H "image/jpeg" "base64,AAAA"); [exact Hd | discriminate | reflexivity].
Defined.

(** C9.  A stored payload without any "data:<type>;" tag is restored with
    the fallback media type "image/png". *)
Theorem restore_falls_back_to_png :
  forall (item : GeneratedImage) (s : State) (payloads : list string)
         (payload : string),
    Types.sourceImages item = Some payloads ->
    In payload payloads ->
    (forall tag, ~ JS.CarriesTag payload tag) ->
    In {| data := payload; mimeType := "image/png" |}
       (sourceImages (NanoBanana.handleRestoreHistory item s))
    /\ forall img,
         In img (sourceImages (NanoBanana.handleRestoreHistory item s)) ->
         data img = payload -> mimeType img = "image/png".
Proof.
  intros item s payloads payload Hsrc Hin Hno.
  rewrite (restored_sourceImages item s payloads Hsrc).
  assert (Hr : NanoBanana.restoreImage payload
               = {| data := payload; mimeType := "image/png" |}).
  { unfold NanoBanana.restoreImage.
    destruct (JS.matchDataTag payload) as [t|] eqn:E; [|reflexivity].
    exfalso. exact (Hno t (JSFacts.matchDataTag_sound _ _ E)). }
  split.
  - rewrite <- Hr. now apply in_map.
  - intros img Himg Hd. apply in_map_iff in Himg as (q & <- & _).
    cbn in Hd. subst q. now rewrite Hr.
Qed.

Lemma restore_falls_back_to_png_witness :
  let item := {| id := "1x"; url := "data:image/png;base64,RRRR";
                 Types.prompt := "sharpen";
                 Types.sourceImages := Some ["iVBORw0KGgo="];
                 timestamp := 0 |} in
  In {| data := "iVBORw0KGgo="; mimeType := "image/png" |}
     (sourceImages (NanoBanana.handleRestoreHistory item initial)).
Proof.
  intros item.
  refine (proj1 (restore_falls_back_to_png item initial _ "iVBORw0KGgo="
                   eq_refl (or_introl eq_refl) _)).
  intros tag Hc.
  destruct (JSFacts.matchDataTag_complete _ _ Hc) as (t' & Hm).
  discriminate Hm.
Defined.

End AppFacts.

(* ================================================================== *)
(** * Further properties of the viewport                               *)
(* ================================================================== *)

Module ViewportGestures.

Import ZoomableImage.
Local Open Scope Q_scope.

Lemma gtb_true_lt (v : Q) : gtb v 1 = true <-> 1 < v.
Proof.
  unfold gtb. rewrite negb_true_iff. split.
  - intros H. apply Qnot_le_lt. intros Hle.
    apply Qle_bool_iff in Hle. congruence.
  - intros Hlt. destruct (Qle_bool v 1) eqn:E; [|reflexivity].
    apply Qle_bool_iff in E. exfalso. exact (Qlt_not_le _ _ Hlt E).
Qed.

(** While a drag is on and the image is zoomed, moves keep the anchor,
    the scale and the drag flag. *)
Lemma moves_while_dragging (moves : list MouseEvent) :
  forall s,
    isDragging s = true -> gtb (scale s) 1 = true ->
    let s' := run (map MouseMove moves) s in
    isDragging s' = true /\ scale s' = scale s /\ dragStart s' = dragStart s.
Proof.
  unfold run.
  induction moves as [|e moves IH]; intros s Hd Hz; cbn; [now repeat split|].
  assert (Hm : handleMouseMove e s
               = setPosition {| x := clientX e - x (dragStart s);
                                y := clientY e - y (dragStart s) |} s).
  { unfold handleMouseMove. now rewrite Hd, Hz. }
  rewrite Hm.
  destruct (IH (setPosition {| x := clientX e - x (dragStart s);
                               y := clientY e - y (dragStart s) |} s) Hd Hz)
    as (H1 & H2 & H3).
  repeat split; assumption.
Qed.

(** X1.  A drag on a zoomed image moves the image with the pointer:
    after the press and any number of moves, the translation is the one
    at the press plus the pointer's displacement since the press; the
    scale is untouched. *)
Theorem drag_follows_pointer :
  forall (s : State) (press : MouseEvent) (moves : list MouseEvent)
         (last : MouseEvent),
    gtb (scale s) 1 = true ->
    let s' := run (MouseDown press :: map MouseMove moves ++ [MouseMove last]) s in
    x (position s') == x (position s) + (clientX last - clientX press)
    /\ y (position s') == y (position s) + (clientY last - clientY press)
    /\ scale s' = scale s
    /\ isDragging s' = true.
Proof.
  intros s press moves last Hz s'. unfold s', run.
  cbn [fold_left step]. rewrite fold_left_app. cbn [fold_left step].
  assert (Hdown : handleMouseDown press s
                  = setDragStart {| x := clientX press - x (position s);
                                    y := clientY press - y (position s) |}
                                 (setIsDragging true s)).
  { unfold handleMouseDown. now rewrite Hz. }
  rewrite Hdown.
  set (s1 := setDragStart _ _).
  destruct (moves_while_dragging moves s1 eq_refl Hz) as (Hd & Hs & Ha).
  unfold run in Hd, Hs, Ha.
  set (s2 := fold_left step (map MouseMove moves) s1) in *.
  unfold handleMouseMove. rewrite Hd, Hs. cbn [andb].
  change (scale s1) with (scale s). rewrite Hz.
  cbn [position setPosition x y scale isDragging]. rewrite Ha.
  cbn [dragStart s1 setDragStart x y].
  repeat split; try assumption; ring.
Qed.

Lemma drag_follows_pointer_witness :
  let zoomed := zoomIn initial in
  let s' := run [MouseDown {| clientX := 10; clientY := 10 |};
                 MouseMove {| clientX := 12; clientY := 11 |};
                 MouseMove {| clientX := 30; clientY := 5 |}] zoomed in
  x (position s') == x (position zoomed) + (30 - 10)
  /\ y (position s') == y (position zoomed) + (5 - 10).
Proof.
  intros zoomed s'.
  destruct (drag_follows_pointer zoomed {| clientX := 10; clientY := 10 |}
              [{| clientX := 12; clientY := 11 |}]
              {| clientX := 30; clientY := 5 |} eq_refl) as (Hx & Hy & _).
  split; [exact Hx | exact Hy].
Defined.

Lemma moves_without_drag (moves : list MouseEvent) :
  forall s, isDragging s = false -> run (map MouseMove moves) s = s.
Proof.
  unfold run.
  induction moves as [|e moves IH]; intros s Hd; cbn; [reflexivity|].
  unfold handleMouseMove. rewrite Hd. cbn. now apply IH.
Qed.

(** X2.  Once the button is released, or the pointer has left the
    viewer, moving the pointer does nothing, at any scale: the state
    after the release is the final one. *)
Theorem moves_after_release_do_nothing :
  forall (s : State) (moves : list MouseEvent),
    run (MouseUp :: map MouseMove moves) s = handleMouseUp s
    /\ run (MouseLeave :: map MouseMove moves) s = handleMouseUp s
    /\ position (handleMouseUp s) = position s
    /\ scale (handleMouseUp s) = scale s.
Proof.
  intros s moves.
  assert (H : run (map MouseMove moves) (handleMouseUp s) = handleMouseUp s)
    by now apply moves_without_drag.
  repeat split; exact H.
Qed.

Lemma plain_wheel_frame (e : WheelEvent) (s : State) :
  ctrlKey e = false ->
  scale (handleWheel e s) = scale s
  /\ position (handleWheel e s) = position s
  /\ isDragging (handleWheel e s) = isDragging s
  /\ dragStart (handleWheel e s) = dragStart s.
Proof.
  intros Hc. unfold handleWheel. rewrite Hc.
  destruct (Qeq_bool (scale s) 1); now repeat split.
Qed.

(** X3.  Wheel events without the modifier never zoom or pan, however
    many there are; all they can do is raise the hint, and only when the
    image is at scale 1. *)
Theorem plain_wheel_never_zooms :
  forall (wheels : list WheelEvent) (s : State),
    Forall (fun e => ctrlKey e = false) wheels ->
    let s' := run (map Wheel wheels) s in
    scale s' = scale s /\ position s' = position s
    /\ isDragging s' = isDragging s /\ dragStart s' = dragStart s
    /\ (~ scale s == 1 -> s' = s).
Proof.
  unfold run. intros wheels.
  induction wheels as [|e wheels IH]; intros s Hall; cbn;
    [now repeat split|].
  inversion Hall as [|? ? He Hrest]; subst.
  destruct (plain_wheel_frame e s He) as (H1 & H2 & H3 & H4).
  destruct (IH (handleWheel e s) Hrest) as (I1 & I2 & I3 & I4 & I5).
  repeat split; try congruence.
  intros Hne.
  assert (Hsame : handleWheel e s = s).
  { unfold handleWheel. rewrite He.
    destruct (Qeq_bool (scale s) 1) eqn:E; [|reflexivity].
    apply Qeq_bool_iff in E. contradiction. }
  rewrite Hsame in I5 |- *. now apply I5.
Qed.

Lemma plain_wheel_never_zooms_witness :
  let zoomed := zoomIn initial in
  run (map Wheel [{| ctrlKey := false; deltaY := 120 |};
                  {| ctrlKey := false; deltaY := -120 |}]) zoomed = zoomed.
Proof.
  intros zoomed.
  refine (proj2 (proj2 (proj2 (proj2
    (plain_wheel_never_zooms _ zoomed _)))) _).
  - repeat constructor.
  - intros H. discriminate H.
Defined.

End ViewportGestures.

Module ViewportZoom.

Import ZoomableImage.
Local Open Scope Q_scope.

Lemma half_round_trip (v : Q) : v + (1 # 2) - (1 # 2) == v.
Proof. ring. Qed.

Lemma half_round_trip' (v : Q) : v - (1 # 2) + (1 # 2) == v.
Proof. ring. Qed.

Lemma half_steps_bounds (s : State) :
  OnHalfSteps s -> 1 <= scale s /\ scale s <= 8.
Proof.
  intros (k & Hk & E). rewrite E.
  split; unfold Qle; cbn; lia.
Qed.

Lemma half_step_up (k : Z) :
  (2 <= k <= 16)%Z ->
  exists k', (2 <= k' <= 16)%Z /\ Qmin ((k # 2) + (1 # 2)) 8 == k' # 2.
Proof.
  intros Hk.
  assert (E : (k # 2) + (1 # 2) == (k + 1) # 2)
    by (unfold Qeq, Qplus; cbn; lia).
  destruct (Z.eq_dec k 16) as [-> | Hne].
  - exists 16%Z. split; [lia|]. reflexivity.
  - exists (k + 1)%Z. split; [lia|]. rewrite E.
    apply Q.min_l. unfold Qle; cbn; lia.
Qed.

Lemma half_step_down (k : Z) :
  (2 <= k <= 16)%Z ->
  exists k', (2 <= k' <= 16)%Z /\ Qmax 1 ((k # 2) - (1 # 2)) == k' # 2.
Proof.
  intros Hk.
  assert (E : (k # 2) - (1 # 2) == (k - 1) # 2)
    by (unfold Qeq, Qminus, Qplus, Qopp; cbn; lia).
  destruct (Z.eq_dec k 2) as [-> | Hne].
  - exists 2%Z. split; [lia|]. reflexivity.
  - exists (k - 1)%Z. split; [lia|]. rewrite E.
    apply Q.max_r. unfold Qle; cbn; lia.
Qed.

(** Every handler but the zooming wheel keeps the scale on half steps. *)
Lemma half_steps_step (s : State) (ev : Event) :
  isCtrlWheel ev = false -> OnHalfSteps s -> OnHalfSteps (step s ev).
Proof.
  intros Hev (k & Hk & E).
  assert (Hone : OnHalfSteps (reset s))
    by (exists 2%Z; split; [lia | reflexivity]).
  destruct ev; cbn [step]; cbn in Hev.
  - unfold handleWheel. rewrite Hev.
    destruct (Qeq_bool (scale s) 1); now exists k.
  - unfold handleMouseDown. destruct (gtb (scale s) 1); now exists k.
  - unfold handleMouseMove. destruct (isDragging s && gtb (scale s) 1);
      now exists k.
  - now exists k.
  - now exists k.
  - destruct (half_step_up k Hk) as (k' & Hk' & E').
    exists k'. split; [exact Hk'|]. cbn. now rewrite E.
  - destruct (half_step_down k Hk) as (k' & Hk' & E').
    exists k'. split; [exact Hk'|]. unfold zoomOut. cbn [scale setScale].
    now rewrite E.
  - exact Hone.
  - exact Hone.
  - now exists k.
Qed.

Lemma half_steps_run (evs : list Event) :
  forall s,
    forallb (fun ev => negb (isCtrlWheel ev)) evs = true ->
    OnHalfSteps s -> OnHalfSteps (run evs s).
Proof.
  unfold run.
  induction evs as [|ev evs IH]; intros s Hall Hs; cbn; [exact Hs|].
  cbn in Hall. apply andb_prop in Hall as [Hev Hrest].
  apply negb_true_iff in Hev.
  apply IH; [exact Hrest | now apply half_steps_step].
Qed.

Lemma steppers_on_half_steps (s : State) :
  OnHalfSteps s ->
  (scale s <= 15 # 2 ->
   scale (zoomOut (zoomIn s)) == scale s
   /\ (~ scale s == 1 -> position (zoomOut (zoomIn s)) = position s))
  /\
  (3 # 2 <= scale s ->
   scale (zoomIn (zoomOut s)) == scale s
   /\ (3 # 2 < scale s -> position (zoomIn (zoomOut s)) = position s)
   /\ (scale s == 3 # 2 -> position (zoomIn (zoomOut s)) = origin)).
Proof.
  intros Hhalf. destruct (half_steps_bounds s Hhalf) as [Hlo Hhi]. split.
  - intros H75.
    assert (Hin : Qmin (scale s + (1 # 2)) 8 == scale s + (1 # 2)).
    { apply Q.min_l. setoid_replace 8 with ((15 # 2) + (1 # 2)) by reflexivity.
      now apply Qplus_le_l. }
    assert (Hout : Qmax 1 (Qmin (scale s + (1 # 2)) 8 - (1 # 2)) == scale s).
    { rewrite Hin, half_round_trip. now apply Q.max_r. }
    split.
    + exact Hout.
    + intros Hne. unfold zoomOut, zoomIn. cbn [scale setScale].
      destruct (Qeq_bool _ 1) eqn:E; [|reflexivity].
      apply Qeq_bool_iff in E. rewrite Hout in E. contradiction.
  - intros H15.
    assert (Hout : Qmax 1 (scale s - (1 # 2)) == scale s - (1 # 2)).
    { apply Q.max_r. setoid_replace 1 with ((3 # 2) - (1 # 2)) by reflexivity.
      unfold Qminus. now apply Qplus_le_l. }
    split; [|split].
    + unfold zoomIn, zoomOut. cbn [scale setScale].
      rewrite Hout, half_round_trip'. now apply Q.min_l.
    + intros Hgt.
      assert (Hb : Qeq_bool (Qmax 1 (scale s - (1 # 2))) 1 = false).
      { destruct (Qeq_bool _ 1) eqn:E; [|reflexivity].
        apply Qeq_bool_iff in E. rewrite Hout in E.
        assert (Hs : scale s == 3 # 2).
        { rewrite <- (half_round_trip' (scale s)), E. reflexivity. }
        rewrite Hs in Hgt. discriminate Hgt. }
      unfold zoomIn, zoomOut. cbn [scale setScale position]. now rewrite Hb.
    + intros Hs.
      assert (Hb : Qeq_bool (Qmax 1 (scale s - (1 # 2))) 1 = true).
      { apply Qeq_bool_iff. rewrite Hout, Hs. reflexivity. }
      unfold zoomIn, zoomOut. cbn [scale setScale position]. now rewrite Hb.
Qed.

(** X4.  As long as the user has not zoomed with Ctrl+wheel (steppers,
    reset, drags, plain wheel and image changes only), the scale is a
    whole number of half steps between 1 and 8, and the steppers undo
    each other away from the bounds: zoom-in then zoom-out gives back a
    scale of at most 7.5, and the translation too unless the image was
    at scale 1; zoom-out then zoom-in gives back a scale of at least
    1.5, and the translation too when the scale was above 1.5 (from 1.5
    the zoom-out reaches 1 and recentres). *)
Theorem steppers_round_trip :
  forall (evs : list Event),
    forallb (fun ev => negb (isCtrlWheel ev)) evs = true ->
    let s := run evs initial in
    (exists k : Z, (2 <= k <= 16)%Z /\ scale s == k # 2)
    /\
    (scale s <= 15 # 2 ->
     scale (zoomOut (zoomIn s)) == scale s
     /\ (~ scale s == 1 -> position (zoomOut (zoomIn s)) = position s))
    /\
    (3 # 2 <= scale s ->
     scale (zoomIn (zoomOut s)) == scale s
     /\ (3 # 2 < scale s -> position (zoomIn (zoomOut s)) = position s)
     /\ (scale s == 3 # 2 -> position (zoomIn (zoomOut s)) = origin)).
Proof.
  intros evs Hall s.
  assert (Hhalf : OnHalfSteps s).
  { apply half_steps_run; [exact Hall|].
    exists 2%Z. split; [lia | reflexivity]. }
  split; [exact Hhalf|]. now apply steppers_on_half_steps.
Qed.

Lemma steppers_round_trip_witness :
  let evs := [ZoomIn; ZoomIn; MouseDown {| clientX := 3; clientY := 4 |};
              MouseMove {| clientX := 9; clientY := 1 |}; MouseUp] in
  let s := run evs initial in
  scale s == 2
  /\ scale (zoomOut (zoomIn s)) == scale s
  /\ position (zoomOut (zoomIn s)) = position s
  /\ scale (zoomIn (zoomOut s)) == scale s
  /\ position (zoomIn (zoomOut s)) = position s.
Proof.
  intros evs s.
  destruct (steppers_round_trip evs eq_refl) as (_ & Hio & Hoi).
  fold s in Hio, Hoi.
  assert (H75 : scale s <= 15 # 2) by discriminate.
  assert (H15 : 3 # 2 <= scale s) by discriminate.
  destruct (Hio H75) as [Hs1 Hp1]. destruct (Hoi H15) as (Hs2 & Hp2 & _).
  split; [reflexivity|]. split; [exact Hs1|].
  split; [apply Hp1; discriminate|]. split; [exact Hs2|].
  apply Hp2. reflexivity.
Defined.

(** X5.  Direction of the zoom controls on a state within bounds: a
    wheel tick with the modifier and a non-positive [deltaY] never lowers
    the scale, one with a non-negative [deltaY] never raises it, zoom-in
    never lowers it and zoom-out never raises it; zoom-in never moves the
    image. *)
Theorem zoom_direction :
  forall (s : State) (e : WheelEvent),
    1 <= scale s -> scale s <= 8 ->
    ctrlKey e = true ->
    (deltaY e <= 0 -> scale s <= scale (handleWheel e s))
    /\ (0 <= deltaY e -> scale (handleWheel e s) <= scale s)
    /\ scale s <= scale (zoomIn s)
    /\ scale (zoomOut s) <= scale s
    /\ position (zoomIn s) = position s.
Proof.
  intros s e Hlo Hhi Hc.
  assert (Hw : scale (handleWheel e s)
               = clampScale (scale s + - deltaY e * (2 # 1000))).
  { unfold handleWheel. rewrite Hc. reflexivity. }
  rewrite Hw. unfold clampScale.
  split; [|split; [|split; [|split]]].
  - intros Hd. apply Q.min_glb; [|exact Hhi].
    apply Qle_trans with (scale s + - deltaY e * (2 # 1000));
      [|apply Q.le_max_r].
    rewrite <- (Qplus_0_r (scale s)) at 1. apply Qplus_le_r.
    setoid_replace 0 with (0 * (2 # 1000)) by reflexivity.
    apply Qmult_le_compat_r; [|discriminate].
    apply (Qopp_le_compat _ _ Hd).
  - intros Hd. apply Qle_trans with (Qmax 1 (scale s + - deltaY e * (2 # 1000)));
      [apply Q.le_min_l|].
    apply Q.max_lub; [exact Hlo|].
    rewrite <- (Qplus_0_r (scale s)) at 2. apply Qplus_le_r.
    setoid_replace 0 with (0 * (2 # 1000)) by reflexivity.
    apply Qmult_le_compat_r; [|discriminate].
    apply (Qopp_le_compat _ _ Hd).
  - cbn. apply Q.min_glb; [|exact Hhi].
    rewrite <- (Qplus_0_r (scale s)) at 1. apply Qplus_le_r. discriminate.
  - unfold zoomOut. cbn [scale setScale].
    apply Q.max_lub; [exact Hlo|].
    rewrite <- (Qplus_0_r (scale s)) at 2. unfold Qminus.
    apply Qplus_le_r. discriminate.
  - reflexivity.
Qed.

Lemma zoom_direction_witness :
  let e := {| ctrlKey := true; deltaY := -250 |} in
  scale initial <= scale (handleWheel e initial).
Proof.
  intros e.
  assert (Hlo : 1 <= scale initial) by discriminate.
  assert (Hhi : scale initial <= 8) by discriminate.
  destruct (zoom_direction initial e Hlo Hhi eq_refl) as (Hup & _).
  apply Hup. discriminate.
Defined.

(** X6.  In every state the viewer can reach, the zoom-out button is
    disabled exactly at scale 1 and the zoom-in button exactly at scale
    8, the percentage shown lies between 100 and 800, and the hint is
    only shown over an image that is not moved. *)
Theorem controls_follow_the_scale :
  forall (evs : list Event),
    let s := run evs initial in
    (zoomOutDisabled s = true <-> scale s == 1)
    /\ (zoomInDisabled s = true <-> scale s == 8)
    /\ (100 <= percentLabel s <= 800)%Z
    /\ (hintVisible s = true -> position s = origin).
Proof.
  intros evs s.
  destruct (ViewportFacts.Inv_run evs initial ViewportFacts.Inv_initial)
    as (Hlo & Hhi & Hfit).
  fold s in Hlo, Hhi, Hfit.
  unfold zoomOutDisabled, zoomInDisabled, percentLabel, hintVisible.
  rewrite !Qle_bool_iff.
  split; [|split; [|split]].
  - split; [intros H; now apply Qle_antisym | intros H; rewrite H; apply Qle_refl].
  - split; [intros H; now apply Qle_antisym | intros H; rewrite H; apply Qle_refl].
  - split.
    + change 100%Z with (Qfloor (inject_Z 100)) at 1.
      apply Qfloor_resp_le.
      apply Qle_trans with (1 * 100 + (1 # 2)); [discriminate|].
      apply Qplus_le_l. apply Qmult_le_compat_r; [exact Hlo | discriminate].
    + change 800%Z with (Qfloor (8 * 100 + (1 # 2))).
      apply Qfloor_resp_le.
      apply Qplus_le_l. apply Qmult_le_compat_r; [exact Hhi | discriminate].
  - intros H. apply andb_prop in H as [_ H].
    apply Qeq_bool_iff in H. now apply Hfit.
Qed.

End ViewportZoom.

(* ================================================================== *)
(** * Further properties of the ingestion pipeline                     *)
(* ================================================================== *)

Module IngestionBatches.

Import Types DragDropZone.
Local Open Scope nat_scope.

Lemma imagesAt_app files xs ys :
  imagesAt files (xs ++ ys) = imagesAt files xs ++ imagesAt files ys.
Proof. unfold imagesAt. apply flat_map_app. Qed.

(** As long as readers are still outstanding, the callbacks only
    collect. *)
Lemma complete_fold_partial (files : list File) (currentImages : list ImageState)
      (finished : list nat) :
  forall b,
    Forall (Readable files) finished ->
    processedCount b + List.length finished < List.length files ->
    committed b = [] ->
    fold_left (complete files currentImages) finished b
    = {| newImages := newImages b ++ imagesAt files finished;
         processedCount := processedCount b + List.length finished;
         committed := [] |}.
Proof.
  induction finished as [|i rest IH]; intros b Hall Hcount Hnone.
  - cbn. destruct b; cbn in *. subst.
    f_equal; [symmetry; apply app_nil_r | lia].
  - inversion Hall as [|? ? (f & Hnth & Himg) Hrest]; subst.
    cbn [fold_left List.length] in *. unfold complete at 2.
    rewrite Hnth, Himg. rewrite (IngestionFacts.imagesAt_cons _ _ _ _ Hnth).
    unfold onload. cbn [processedCount incr push newImages].
    replace (S (processedCount b) =? List.length files) with false
      by (symmetry; apply Nat.eqb_neq; lia).
    rewrite IH.
    + unfold incr, push; cbn [newImages processedCount committed].
      rewrite <- app_assoc. cbn. f_equal. lia.
    + exact Hrest.
    + unfold incr, push; cbn [newImages processedCount committed]. lia.
    + exact Hnone.
Qed.

(** X7.  No partial commit: while some reader of the batch has not
    finished, [onImagesChange] has not been called, in either revision;
    the images read so far wait in [newImages] in completion order. *)
Theorem no_commit_before_last_reader :
  forall (files : list File) (currentImages : list ImageState)
         (finished outstanding : list nat),
    Schedule files (finished ++ outstanding) ->
    outstanding <> [] ->
    let b := processFiles_nano files currentImages finished in
    processFiles_wasti files currentImages finished = b
    /\ committed b = []
    /\ sourceImagesAfter currentImages b = currentImages
    /\ newImages b = imagesAt files finished.
Proof.
  intros files currentImages finished outstanding Hs Hout b.
  assert (Hb : b = processFiles_wasti files currentImages finished)
    by apply IngestionFacts.processFiles_revisions_agree.
  pose proof (IngestionFacts.Schedule_length _ _ Hs) as Hlen.
  pose proof (IngestionFacts.Schedule_Readable _ _ Hs) as Hread.
  apply Forall_app in Hread as [Hread _].
  rewrite length_app in Hlen.
  pose proof (filter_length_le isImage files) as Hle.
  assert (Hpos : 0 < List.length outstanding)
    by (destruct outstanding; [congruence | cbn; lia]).
  assert (Hspec : b = {| newImages := imagesAt files finished;
                         processedCount := List.length files
                                           - List.length (filter isImage files)
                                           + List.length finished;
                         committed := [] |}).
  { rewrite Hb. unfold processFiles_wasti, processFilesWith.
    destruct (List.length files =? 0) eqn:E.
    - apply Nat.eqb_eq in E. lia.
    - rewrite IngestionFacts.visit_wasti_fold.
      rewrite complete_fold_partial; cbn; try assumption; try reflexivity; lia. }
  rewrite <- Hb. rewrite Hspec. cbn. repeat split.
Qed.

Lemma no_commit_before_last_reader_witness :
  let files := [ {| type := "image/png"; result := "data:image/png;base64,AAAA" |};
                 {| type := "image/gif"; result := "data:image/gif;base64,BBBB" |} ] in
  committed (processFiles_nano files [] [1]) = [].
Proof.
  intros files.
  assert (Hs : Schedule files ([1] ++ [0])) by apply perm_swap.
  assert (Hne : [0] <> []) by discriminate.
  exact (proj1 (proj2 (no_commit_before_last_reader files [] [1] [0] Hs Hne))).
Defined.

(** X8.  Removing the image at an index shortens the list by one when
    the index is in range and leaves it alone otherwise; the images
    before the index stay where they are and the ones after it move up
    by one, in order. *)
Theorem removeImage_shifts :
  forall (images : list ImageState) (index : nat),
    List.length (removeImage index images)
    = List.length images - (if index <? List.length images then 1 else 0)
    /\ (forall j, nth_error (removeImage index images) j
                  = if j <? index then nth_error images j
                    else nth_error images (S j))
    /\ (List.length images <= index -> removeImage index images = images).
Proof.
  intros images index. unfold removeImage. split; [|split].
  - rewrite length_app, length_firstn, length_skipn.
    destruct (index <? List.length images) eqn:E;
      [apply Nat.ltb_lt in E | apply Nat.ltb_ge in E]; lia.
  - intros j. destruct (j <? index) eqn:E.
    + apply Nat.ltb_lt in E.
      destruct (Nat.lt_ge_cases j (List.length images)) as [Hj | Hj].
      * rewrite nth_error_app1 by (rewrite length_firstn; lia).
        rewrite nth_error_firstn.
        now rewrite (proj2 (Nat.ltb_lt j index) E).
      * rewrite (proj2 (nth_error_None images j)) by lia.
        apply nth_error_None.
        rewrite length_app, length_firstn, length_skipn. lia.
    + apply Nat.ltb_ge in E.
      destruct (Nat.lt_ge_cases index (List.length images)) as [Hi | Hi].
      * rewrite nth_error_app2 by (rewrite length_firstn; lia).
        rewrite length_firstn, nth_error_skipn.
        f_equal. lia.
      * rewrite (proj2 (nth_error_None images (S j))) by lia.
        apply nth_error_None.
        rewrite length_app, length_firstn, length_skipn. lia.
  - intros Hi. rewrite firstn_all2 by exact Hi.
    rewrite skipn_all2 by lia. apply app_nil_r.
Qed.

End IngestionBatches.

(* ================================================================== *)
(** * Further properties of the string primitives                      *)
(* ================================================================== *)

Module JSCuts.

Import JS.
Local Open Scope string_scope.

Lemma trimEnd_keeps (c : ascii) (r : string) :
  isWhiteSpace c = false -> trimEnd (String c r) = String c (trimEnd r).
Proof. intros H. cbn. now rewrite H. Qed.

(** A string trims to nothing exactly when it is all white space. *)
Lemma trim_empty (s : string) :
  negb (truthy (trim s)) = allWhiteSpace s.
Proof.
  unfold trim. induction s as [|c r IH]; [reflexivity|].
  cbn [trimStart allWhiteSpace].
  destruct (isWhiteSpace c) eqn:E; cbn [andb]; [exact IH|].
  now rewrite (trimEnd_keeps c r E).
Qed.

Lemma cut_unfold (sep s : string) :
  cut sep s
  = if String.prefix sep s then Some ("", slice (String.length sep) s)
    else match s with
         | "" => None
         | String c s' =>
             match cut sep s' with
             | Some (before, after) => Some (String c before, after)
             | None => None
             end
         end.
Proof. destruct s; reflexivity. Qed.

Lemma includes_here (sep s : string) : includes (sep ++ s) sep = true.
Proof.
  unfold includes. rewrite cut_unfold, JSFacts.prefix_app. reflexivity.
Qed.

Lemma append_assoc (s t u : string) : (s ++ t) ++ u = s ++ t ++ u.
Proof. induction s as [|c s IH]; cbn; [reflexivity | now rewrite IH]. Qed.

Lemma toLowerCase_app (s t : string) :
  toLowerCase (s ++ t) = toLowerCase s ++ toLowerCase t.
Proof. induction s as [|c s IH]; cbn; [reflexivity | now rewrite IH]. Qed.

Lemma noComma_app (s t : string) :
  noComma (s ++ t) = noComma s && noComma t.
Proof.
  induction s as [|c s IH]; cbn; [reflexivity|].
  rewrite IH. now rewrite andb_assoc.
Qed.

Lemma String_inj (a b : ascii) (s t : string) :
  String a s = String b t -> a = b /\ s = t.
Proof. intros H. injection H. auto. Qed.

(** ["base64,"] cannot start inside text without a comma that is
    followed by ["base64,"]: it would need a second ['b'] or a comma. *)
Lemma base64_not_before (c : ascii) (pre rest : string) :
  noComma (String c pre) = true ->
  String.prefix "base64," (String c (pre ++ "base64," ++ rest)) = false.
Proof.
  intros Hn.
  destruct (String.prefix "base64," (String c (pre ++ "base64," ++ rest)))
    eqn:E; [|reflexivity].
  exfalso. apply JSFacts.prefix_split in E. cbn in E.
  apply String_inj in E as [-> E].
  do 5 (destruct pre as [|? pre]; cbn in E; [discriminate E|];
        apply String_inj in E as [-> E]).
  destruct pre as [|? pre]; cbn in E; [discriminate E|].
  apply String_inj in E as [-> E]. cbn in Hn. discriminate Hn.
Qed.

Lemma cut_base64 (pre rest : string) :
  noComma pre = true ->
  cut "base64," (pre ++ "base64," ++ rest) = Some (pre, rest).
Proof.
  induction pre as [|c pre IH]; intros Hn; rewrite cut_unfold.
  - change ("" ++ "base64," ++ rest) with ("base64," ++ rest).
    rewrite JSFacts.prefix_app.
    now rewrite (JSFacts.slice_app "base64," rest).
  - change (String c pre ++ "base64," ++ rest)
      with (String c (pre ++ "base64," ++ rest)).
    rewrite (base64_not_before c pre rest Hn).
    cbn in Hn. apply andb_prop in Hn as [_ Hn].
    now rewrite (IH Hn).
Qed.

Lemma cut_base64_none (s : string) :
  noComma s = true -> cut "base64," s = None.
Proof.
  induction s as [|c s IH]; intros Hn; rewrite cut_unfold.
  - reflexivity.
  - destruct (String.prefix "base64," (String c s)) eqn:E.
    + exfalso. apply JSFacts.prefix_split in E. rewrite E in Hn.
      cbn in Hn. discriminate Hn.
    + cbn in Hn. apply andb_prop in Hn as [_ Hn]. now rewrite (IH Hn).
Qed.

End JSCuts.

(* ================================================================== *)
(** * Further properties of the generation client                      *)
(* ================================================================== *)

Module GeminiRequests.

Import Types Gemini.
Local Open Scope string_scope.

(** X9.  A request without source images always reaches the model with
    a text that mentions "generate", "create" or "image" (in any letter
    case): the prompt itself when it already does, the prompt behind
    "Generate an image of " otherwise.  With source images the prompt is
    sent as typed.  The text is the last part of the request. *)
Theorem text_part_asks_for_an_image :
  forall (opts : GenerateOptions),
    let sent := JS.toLowerCase (finalPrompt opts) in
    (noSourceImages opts = true ->
     (JS.includes sent "generate" || JS.includes sent "create"
      || JS.includes sent "image") = true
     /\ (finalPrompt opts = prompt opts
         \/ finalPrompt opts = "Generate an image of " ++ prompt opts))
    /\ (noSourceImages opts = false -> finalPrompt opts = prompt opts)
    /\ last (requestParts opts) (TextPart "") = TextPart (finalPrompt opts).
Proof.
  intros opts sent. unfold sent, finalPrompt.
  split; [|split].
  - intros Hno. rewrite Hno.
    destruct (JS.includes (JS.toLowerCase (prompt opts)) "generate") eqn:E1;
      cbn [negb andb]; [rewrite E1; now split; [|left]|].
    destruct (JS.includes (JS.toLowerCase (prompt opts)) "create") eqn:E2;
      cbn [negb andb]; [rewrite E2, orb_true_r; now split; [|left]|].
    destruct (JS.includes (JS.toLowerCase (prompt opts)) "image") eqn:E3;
      cbn [negb andb]; [rewrite E3, !orb_true_r; now split; [|left]|].
    split; [|now right].
    rewrite JSCuts.toLowerCase_app.
    change (JS.toLowerCase "Generate an image of ")
      with ("generate" ++ " an image of ").
    rewrite JSCuts.append_assoc.
    now rewrite JSCuts.includes_here.
  - intros Hno. now rewrite Hno.
  - unfold requestParts. apply last_last.
Qed.

Lemma firstInlineData_skip (before : list ResponsePart) :
  forall p after b,
    Forall (fun q => inlineData q = None) before ->
    inlineData p = Some b ->
    firstInlineData (before ++ p :: after)%list = Some b.
Proof.
  induction before as [|q before IH]; intros p after b Hall Hp; cbn.
  - now rewrite Hp.
  - inversion Hall as [|? ? Hq Hrest]; subst. rewrite Hq. now apply IH.
Qed.

(** X10.  An image in the first candidate always wins: the call fulfils
    with the data URL of the first part that carries inline data,
    whatever text the parts before it carry and whatever the later
    parts and candidates are. *)
Theorem first_image_part_wins :
  forall (r : Response) (c : Candidate) (cs : list Candidate) (ct : Content)
         (before after : list ResponsePart) (p : ResponsePart) (b : Blob),
    candidates r = Some (c :: cs) ->
    content c = Some ct ->
    content_parts ct = Some (before ++ p :: after)%list ->
    Forall (fun q => inlineData q = None) before ->
    inlineData p = Some b ->
    settle (Answered r)
    = Fulfilled ("data:" ++ JS.interpolate (blob_mimeType b) ++ ";base64,"
                         ++ JS.interpolate (blob_data b)).
Proof.
  intros r c cs ct before after p b Hc Hct Hps Hall Hp.
  cbn. unfold parseResponse. rewrite Hc, Hct, Hps.
  now rewrite (firstInlineData_skip before p after b Hall Hp).
Qed.

Lemma first_image_part_wins_witness :
  let img := {| blob_mimeType := Some "image/png"; blob_data := Some "AAAA" |} in
  let ps := [ {| inlineData := None; text := Some "Here is your picture." |};
              {| inlineData := Some img; text := None |} ] in
  let r := {| candidates :=
                Some [ {| content := Some {| content_parts := Some ps |} |} ] |} in
  settle (Answered r) = Fulfilled "data:image/png;base64,AAAA".
Proof.
  intros img ps r.
  refine (first_image_part_wins r _ [] _
            [ {| inlineData := None; text := Some "Here is your picture." |} ] []
            {| inlineData := Some img; text := None |} img
            eq_refl eq_refl eq_refl _ eq_refl).
  repeat constructor.
Defined.

Lemma firstText_truthy (ps : list ResponsePart) (t : string) :
  firstText ps = Some t -> t <> "".
Proof.
  induction ps as [|p ps IH]; cbn; [discriminate|].
  destruct (text p) as [u|]; [|exact IH].
  destruct (JS.truthy u) eqn:E; [|exact IH].
  intros H. inversion H; subst. now apply JSFacts.truthy_nonempty.
Qed.

Lemma parseResponse_errors (r : Response) (m : string) :
  parseResponse r = inr m ->
  m = NO_IMAGE
  \/ exists t, t <> "" /\ m = "Model returned text instead of image: " ++ t.
Proof.
  unfold parseResponse.
  destruct (candidates r) as [[|c cs]|]; try (intros H; inversion H; now left).
  destruct (content c) as [ct|]; try (intros H; inversion H; now left).
  destruct (content_parts ct) as [ps|]; try (intros H; inversion H; now left).
  destruct (firstInlineData ps); [discriminate|].
  destruct (firstText ps) as [t|] eqn:E; intros H; inversion H; [|now left].
  right. exists t. split; [exact (firstText_truthy ps t E) | reflexivity].
Qed.

(** X11.  The promise of the client only ever rejects with a non-empty
    message of one of four kinds: the remote error's own message, "Failed
    to process image request." when that error has none, "Model returned
    text instead of image: " followed by the non-empty text, or the
    no-image message. *)
Theorem rejection_messages :
  forall (o : Outcome) (message : string),
    settle o = Rejected message ->
    message <> ""
    /\ ((exists m, o = Failed (Some m) /\ m <> "" /\ message = m)
        \/ ((o = Failed None \/ o = Failed (Some ""))
            /\ message = "Failed to process image request.")
        \/ (exists r t, o = Answered r /\ t <> ""
                        /\ message = "Model returned text instead of image: " ++ t)
        \/ (exists r, o = Answered r
                      /\ message = "No image generated. The model response was empty or invalid.")).
Proof.
  intros o message H.
  split; [exact (GeminiFacts.settle_rejected_nonempty o message H)|].
  destruct o as [[m|]|r]; cbn in H.
  - unfold rethrow, JS.orElse in H. destruct (JS.truthy m) eqn:E.
    + left. exists m. apply JSFacts.truthy_nonempty in E.
      inversion H; subst. now repeat split.
    + right; left. unfold JS.truthy in E. apply negb_false_iff in E.
      apply String.eqb_eq in E. subst m. inversion H. now split; [right|].
  - right; left. inversion H. now split; [left|].
  - destruct (parseResponse r) as [u|m] eqn:E; [discriminate|].
    destruct (parseResponse_errors r m E) as [-> | (t & Ht & ->)].
    + right; right; right. exists r. inversion H. now split.
    + right; right; left. exists r, t. inversion H. now repeat split.
Qed.

Lemma rejection_messages_witness :
  "quota exceeded" <> ""
  /\ settle (Failed (Some "quota exceeded")) = Rejected "quota exceeded".
Proof.
  split; [|reflexivity].
  exact (proj1 (rejection_messages (Failed (Some "quota exceeded"))
                  "quota exceeded" eq_refl)).
Defined.

Lemma nothing_usable_parts (ps : list ResponsePart) :
  Forall (fun q => inlineData q = None
                   /\ (text q = None \/ text q = Some "")) ps ->
  firstInlineData ps = None /\ firstText ps = None.
Proof.
  induction 1 as [|q ps (Hi & Ht) _ (IH1 & IH2)]; cbn; [now split|].
  rewrite Hi. split; [exact IH1|].
  destruct Ht as [-> | ->]; exact IH2.
Qed.

(** X12.  A response with no candidate, no content, no parts, or with
    parts that carry neither an image nor non-empty text, is rejected
    with the no-image message. *)
Theorem empty_response_is_rejected :
  forall (r : Response),
    NothingUsable r ->
    settle (Answered r)
    = Rejected "No image generated. The model response was empty or invalid.".
Proof.
  intros r H. cbn. unfold NothingUsable in H. unfold parseResponse.
  destruct (candidates r) as [[|c cs]|]; try reflexivity.
  destruct (content c) as [ct|]; try reflexivity.
  destruct (content_parts ct) as [ps|]; try reflexivity.
  destruct (nothing_usable_parts ps H) as [-> ->]. reflexivity.
Qed.

Lemma empty_response_is_rejected_witness :
  let blankText := {| inlineData := None; text := Some "" |} in
  let r := {| candidates :=
                Some [ {| content := Some {| content_parts := Some [blankText] |} |} ] |} in
  settle (Answered r) = Rejected NO_IMAGE.
Proof.
  intros blankText r. apply (empty_response_is_rejected r).
  cbn. constructor; [split; [reflexivity | now right] | constructor].
Defined.

(** X13.  The two revisions of the client send the same request whenever
    the aspect ratio is a supported one, and always the same model name
    and parts; only an unsupported ratio makes them differ. *)
Theorem revisions_send_the_same_request :
  forall (opts : GenerateOptions),
    model (Wasti.buildRequest opts) = model (NanoBanana.buildRequest opts)
    /\ parts (Wasti.buildRequest opts) = parts (NanoBanana.buildRequest opts)
    /\ (In (ratioOf opts) SUPPORTED_ASPECT_RATIOS <->
        Wasti.buildRequest opts = NanoBanana.buildRequest opts).
Proof.
  intros opts. split; [reflexivity|]. split; [reflexivity|].
  rewrite <- GeminiFacts.isSpecialRatio_spec.
  unfold Wasti.buildRequest, NanoBanana.buildRequest,
    Wasti.configRatio, Wasti.instructionOf.
  destruct (Wasti.isSpecialRatio opts) eqn:E; split; intros H;
    try reflexivity; discriminate.
Qed.

End GeminiRequests.

(* ================================================================== *)
(** * Further properties of the application component                  *)
(* ================================================================== *)

Module AppSessions.

Import Types App.
Local Open Scope string_scope.

Lemma blank_allWhiteSpace (p : string) : blank p = JS.allWhiteSpace p.
Proof. unfold blank. apply JSCuts.trim_empty. Qed.

(** X14.  A submit goes out exactly when the prompt has a character
    that is not white space and no generation is in flight: from the
    button in both revisions and from Enter without Shift in the Wasti
    revision.  Any other key, Shift+Enter, a blank prompt or a busy
    application leave the state as it is and dispatch nothing.  A submit
    that goes out sets the busy flag and clears the error. *)
Theorem submit_goes_out_when_ready :
  forall (s : State),
    let ready := negb (JS.allWhiteSpace (prompt s)) && negb (isLoading s) in
    let out := dispatch Gemini.Wasti.generateOrEditImage s in
    Wasti.handleGenerate s = (if ready then out else (s, None))
    /\ Wasti.clickSubmit s = (if ready then out else (s, None))
    /\ (forall e : KeyboardEvent,
           Wasti.handleKeyDown e s
           = if (key e =? "Enter") && negb (shiftKey e) && ready
             then out else (s, None))
    /\ NanoBanana.clickSubmit s
       = (if ready then dispatch Gemini.NanoBanana.generateOrEditImage s
          else (s, None))
    /\ fst out = setError None (setIsLoading true s)
    /\ snd out <> None.
Proof.
  intros s ready out. unfold ready, out.
  assert (Hg : Wasti.handleGenerate s
               = if negb (JS.allWhiteSpace (prompt s)) && negb (isLoading s)
                 then dispatch Gemini.Wasti.generateOrEditImage s
                 else (s, None)).
  { unfold Wasti.handleGenerate. rewrite blank_allWhiteSpace.
    destruct (JS.allWhiteSpace (prompt s)), (isLoading s); reflexivity. }
  split; [exact Hg|]. split; [|split; [|split; [|split]]].
  - unfold Wasti.clickSubmit, buttonDisabled. rewrite Hg, blank_allWhiteSpace.
    destruct (JS.allWhiteSpace (prompt s)), (isLoading s); reflexivity.
  - intros e. unfold Wasti.handleKeyDown. rewrite Hg.
    destruct ((key e =? "Enter") && negb (shiftKey e)); [reflexivity|].
    cbn [andb]. reflexivity.
  - unfold NanoBanana.clickSubmit, NanoBanana.handleGenerate, buttonDisabled.
    rewrite blank_allWhiteSpace.
    destruct (JS.allWhiteSpace (prompt s)), (isLoading s); reflexivity.
  - reflexivity.
  - discriminate.
Qed.

(** X15.  A generation that succeeds shows the result and puts one new
    entry in front of the history, older entries untouched.  The entry
    holds the prompt and the source images of the moment of the submit,
    not those on screen when the answer arrives; the prompt box, the
    source images and the error message on screen are left alone and the
    busy flag is cleared. *)
Theorem success_records_the_submission :
  forall (s : State) (p : Pending),
    snd (Wasti.handleGenerate s) = Some p
    \/ snd (NanoBanana.handleGenerate s) = Some p ->
    forall (clk : Clock) (o : Gemini.Outcome) (st : State) (result : string),
      Gemini.settle o = Gemini.Fulfilled result ->
      let st' := resume p clk o st in
      history st'
      = {| id := nowText clk ++ randomSuffix clk;
           url := result;
           Types.prompt := prompt s;
           Types.sourceImages := Some (map data (sourceImages s));
           timestamp := now clk |} :: history st
      /\ generatedImage st' = Some result
      /\ isLoading st' = false
      /\ prompt st' = prompt st
      /\ sourceImages st' = sourceImages st
      /\ error st' = error st.
Proof.
  intros s p Hp clk o st result Hok st'.
  destruct (AppFacts.handleGenerate_pending s p Hp) as (Hk & _ & _).
  unfold st'. rewrite Hk, Hok. cbn. repeat split.
Qed.

Lemma success_records_the_submission_witness :
  let s := setPrompt "a red balloon" initial in
  let edited := setPrompt "a blue kite" (setIsLoading true s) in
  let img := {| Gemini.blob_mimeType := Some "image/png";
                Gemini.blob_data := Some "AAAA" |} in
  let o := Gemini.Answered
             {| Gemini.candidates :=
                  Some [ {| Gemini.content :=
                              Some {| Gemini.content_parts :=
                                        Some [ {| Gemini.inlineData := Some img;
                                                  Gemini.text := None |} ] |} |} ] |} in
  exists p,
    snd (Wasti.handleGenerate s) = Some p
    /\ map Types.prompt
           (history (resume p {| nowText := "17"; randomSuffix := "k3"; now := 17 |}
                            o edited))
       = ["a red balloon"].
Proof.
  intros s edited img o.
  destruct (Wasti.handleGenerate s) as [s1 [p|]] eqn:E; [|discriminate E].
  exists p. split; [reflexivity|].
  assert (Hp : snd (Wasti.handleGenerate s) = Some p) by now rewrite E.
  destruct (success_records_the_submission s p (or_introl Hp)
              {| nowText := "17"; randomSuffix := "k3"; now := 17 |}
              o edited "data:image/png;base64,AAAA" eq_refl) as (Hh & _).
  rewrite Hh. reflexivity.
Defined.

(** X16.  The history is newest first: after two generations that both
    succeed, whatever happened to the rest of the state in between, the
    second result is the first entry, the first result the second, and
    the older entries follow unchanged. *)
Theorem history_is_newest_first :
  forall (s1 s2 : State) (p1 p2 : Pending)
         (clk1 clk2 : Clock) (o1 o2 : Gemini.Outcome) (r1 r2 : string)
         (between : State -> State) (st : State),
    snd (Wasti.handleGenerate s1) = Some p1
    \/ snd (NanoBanana.handleGenerate s1) = Some p1 ->
    snd (Wasti.handleGenerate s2) = Some p2
    \/ snd (NanoBanana.handleGenerate s2) = Some p2 ->
    Gemini.settle o1 = Gemini.Fulfilled r1 ->
    Gemini.settle o2 = Gemini.Fulfilled r2 ->
    (forall x, history (between x) = history x) ->
    exists e1 e2,
      history (resume p2 clk2 o2 (between (resume p1 clk1 o1 st)))
      = e2 :: e1 :: history st
      /\ url e1 = r1 /\ url e2 = r2
      /\ Types.prompt e1 = prompt s1 /\ Types.prompt e2 = prompt s2.
Proof.
  intros s1 s2 p1 p2 clk1 clk2 o1 o2 r1 r2 between st H1 H2 Ho1 Ho2 Hb.
  destruct (AppFacts.handleGenerate_pending s1 p1 H1) as (Hk1 & _ & _).
  destruct (AppFacts.handleGenerate_pending s2 p2 H2) as (Hk2 & _ & _).
  rewrite Hk2, Ho2. unfold afterAwait at 1.
  cbn [history setIsLoading setHistory setGeneratedImage].
  rewrite Hb, Hk1, Ho1. cbn.
  do 2 eexists. split; [reflexivity|]. repeat split.
Qed.

Lemma history_is_newest_first_witness :
  let s1 := setPrompt "a red balloon" initial in
  let s2 := setPrompt "a blue kite" initial in
  let answer d :=
    Gemini.Answered
      {| Gemini.candidates :=
           Some [ {| Gemini.content :=
                       Some {| Gemini.content_parts :=
                                 Some [ {| Gemini.inlineData :=
                                             Some {| Gemini.blob_mimeType := Some "image/png";
                                                     Gemini.blob_data := Some d |};
                                           Gemini.text := None |} ] |} |} ] |} in
  let clk := {| nowText := "17"; randomSuffix := "k3"; now := 17 |} in
  exists p1 p2,
    snd (Wasti.handleGenerate s1) = Some p1
    /\ snd (Wasti.handleGenerate s2) = Some p2
    /\ map url (history (resume p2 clk (answer "BBBB")
                                (resume p1 clk (answer "AAAA") initial)))
       = ["data:image/png;base64,BBBB"; "data:image/png;base64,AAAA"].
Proof.
  intros s1 s2 answer clk.
  destruct (Wasti.handleGenerate s1) as [t1 [p1|]] eqn:E1; [|discriminate E1].
  destruct (Wasti.handleGenerate s2) as [t2 [p2|]] eqn:E2; [|discriminate E2].
  exists p1, p2. split; [reflexivity|]. split; [reflexivity|].
  assert (H1 : snd (Wasti.handleGenerate s1) = Some p1) by now rewrite E1.
  assert (H2 : snd (Wasti.handleGenerate s2) = Some p2) by now rewrite E2.
  destruct (history_is_newest_first s1 s2 p1 p2 clk clk
              (answer "AAAA") (answer "BBBB")
              "data:image/png;base64,AAAA" "data:image/png;base64,BBBB"
              (fun x => x) initial (or_introl H1) (or_introl H2)
              eq_refl eq_refl (fun x => eq_refl))
    as (e1 & e2 & Hh & Hu1 & Hu2 & _).
  cbn beta in Hh. rewrite Hh. cbn. now rewrite Hu1, Hu2.
Defined.

End AppSessions.

Module AppHistory.

Import Types App.
Local Open Scope string_scope.

Lemma setHistory_same (s : State) : setHistory (history s) s = s.
Proof. now destruct s. Qed.

Lemma filter_keeps_all {A} (f : A -> bool) (l : list A) :
  (forall a, In a l -> f a = true) -> filter f l = l.
Proof.
  induction l as [|a l IH]; intros H; cbn; [reflexivity|].
  rewrite (H a (or_introl eq_refl)). f_equal. apply IH.
  intros b Hb. apply H. now right.
Qed.

Lemma delete_unique (id : string) (l : list GeneratedImage) :
  NoDup (map Types.id l) -> In id (map Types.id l) ->
  S (List.length (filter (fun item => negb (Types.id item =? id)) l))
  = List.length l.
Proof.
  induction l as [|a l IH]; intros Hnd Hin; [contradiction|].
  cbn in Hnd, Hin |- *. inversion Hnd as [|? ? Hnot Hnd']; subst.
  destruct (Types.id a =? id) eqn:E; cbn [negb].
  - apply String.eqb_eq in E. f_equal.
    rewrite filter_keeps_all; [reflexivity|].
    intros b Hb. apply negb_true_iff, String.eqb_neq. intros Heq.
    apply Hnot. rewrite E, <- Heq. now apply in_map.
  - cbn. f_equal. apply IH; [exact Hnd'|].
    destruct Hin as [Heq | Hin]; [|exact Hin].
    apply String.eqb_neq in E. contradiction.
Qed.

(** X17.  Deleting a history entry by id removes every entry with that
    id and nothing else, keeps the order of the others and touches no
    other part of the state; with an id that is not in the history the
    state is unchanged, and when ids are unique exactly one entry goes. *)
Theorem delete_removes_the_entry :
  forall (id : string) (s : State),
    let s' := NanoBanana.handleDeleteHistory id s in
    (forall item, In item (history s')
                  <-> In item (history s) /\ Types.id item <> id)
    /\ history s' = filter (fun item => negb (Types.id item =? id)) (history s)
    /\ (~ In id (map Types.id (history s)) -> s' = s)
    /\ (NoDup (map Types.id (history s)) -> In id (map Types.id (history s)) ->
        S (List.length (history s')) = List.length (history s))
    /\ generatedImage s' = generatedImage s
    /\ prompt s' = prompt s /\ sourceImages s' = sourceImages s.
Proof.
  intros id s s'. unfold s', NanoBanana.handleDeleteHistory.
  cbn [history setHistory generatedImage prompt sourceImages].
  split; [|split; [|split; [|split]]].
  - intros item. rewrite filter_In, negb_true_iff, String.eqb_neq. tauto.
  - reflexivity.
  - intros Hnot. rewrite filter_keeps_all; [apply setHistory_same|].
    intros a Ha. apply negb_true_iff, String.eqb_neq. intros Heq.
    apply Hnot. rewrite <- Heq. now apply in_map.
  - apply delete_unique.
  - now repeat split.
Qed.

Lemma restoreImage_wellTagged (img : ImageState) :
  WellTagged img -> NanoBanana.restoreImage (data img) = img.
Proof.
  intros (rest & Hd & Ht & Hn). unfold NanoBanana.restoreImage.
  assert (Hm : JS.matchDataTag (data img) = Some (mimeType img))
    by (rewrite Hd; exact (JSFacts.matchDataTag_dataUrl _ rest Ht Hn)).
  rewrite Hm. now destruct img.
Qed.

Lemma restore_wellTagged (imgs : list ImageState) :
  Forall WellTagged imgs ->
  map NanoBanana.restoreImage (map data imgs) = imgs.
Proof.
  induction 1 as [|img imgs Hw _ IH]; cbn; [reflexivity|].
  now rewrite (restoreImage_wellTagged img Hw), IH.
Qed.

(** An image read by the drop zone from a file whose data URL declares
    the file's type is well tagged. *)
Lemma toImage_wellTagged (file : DragDropZone.File) (rest : string) :
  DragDropZone.result file = "data:" ++ DragDropZone.type file ++ ";" ++ rest ->
  DragDropZone.type file <> "" ->
  JS.noSemicolon (DragDropZone.type file) = true ->
  WellTagged (DragDropZone.toImage file).
Proof. intros Hr Ht Hn. exists rest. now repeat split. Qed.

(** X18.  Generate, then restore: restoring the entry that a successful
    generation put in the history brings back the prompt, the result and
    exactly the source images of that submit, labels included, as long
    as each source image's data URL declares the type it is labelled
    with.  Whatever was on screen before the restore does not matter. *)
Theorem restore_brings_back_the_submission :
  forall (s : State) (p : Pending) (clk : Clock) (o : Gemini.Outcome)
         (st onScreen : State) (result : string) (item : GeneratedImage),
    snd (NanoBanana.handleGenerate s) = Some p ->
    Gemini.settle o = Gemini.Fulfilled result ->
    Forall WellTagged (sourceImages s) ->
    hd_error (history (resume p clk o st)) = Some item ->
    let back := NanoBanana.handleRestoreHistory item onScreen in
    sourceImages back = sourceImages s
    /\ prompt back = prompt s
    /\ generatedImage back = Some result.
Proof.
  intros s p clk o st onScreen result item Hp Hok Hw Hhd back.
  destruct (AppFacts.handleGenerate_pending s p (or_intror Hp)) as (Hk & _ & _).
  rewrite Hk, Hok in Hhd. cbn in Hhd. inversion Hhd; subst item. clear Hhd.
  unfold back. split; [|split].
  - rewrite (AppFacts.restored_sourceImages (newHistoryItem s clk result)
               onScreen (map data (sourceImages s)) eq_refl).
    exact (restore_wellTagged (sourceImages s) Hw).
  - unfold NanoBanana.handleRestoreHistory, newHistoryItem.
    cbn [Types.sourceImages Types.prompt url].
    now destruct (map data (sourceImages s)).
  - unfold NanoBanana.handleRestoreHistory, newHistoryItem.
    cbn [Types.sourceImages Types.prompt url].
    now destruct (map data (sourceImages s)).
Qed.

Lemma restore_brings_back_the_submission_witness :
  let photo := {| data := "data:image/jpeg;base64,AAAA"; mimeType := "image/jpeg" |} in
  let s := setSourceImages [photo] (setPrompt "add a hat" initial) in
  let o := Gemini.Answered
             {| Gemini.candidates :=
                  Some [ {| Gemini.content :=
                              Some {| Gemini.content_parts :=
                                        Some [ {| Gemini.inlineData :=
                                                    Some {| Gemini.blob_mimeType := Some "image/png";
                                                            Gemini.blob_data := Some "BBBB" |};
                                                  Gemini.text := None |} ] |} |} ] |} in
  let clk := {| nowText := "17"; randomSuffix := "k3"; now := 17 |} in
  exists p item,
    snd (NanoBanana.handleGenerate s) = Some p
    /\ hd_error (history (resume p clk o initial)) = Some item
    /\ sourceImages (NanoBanana.handleRestoreHistory item initial) = [photo].
Proof.
  intros photo s o clk.
  destruct (NanoBanana.handleGenerate s) as [s1 [p|]] eqn:E; [|discriminate E].
  assert (Hp : snd (NanoBanana.handleGenerate s) = Some p) by now rewrite E.
  destruct (hd_error (history (resume p clk o initial))) as [item|] eqn:Eh.
  - exists p, item. split; [reflexivity|]. split; [exact Eh|].
    refine (proj1 (restore_brings_back_the_submission s p clk o initial initial
                     "data:image/png;base64,BBBB" item Hp eq_refl _ Eh)).
    constructor; [|constructor].
    exists "base64,AAAA". repeat split. discriminate.
  - exfalso.
    destruct (AppFacts.handleGenerate_pending s p (or_intror Hp)) as (Hk & _ & _).
    rewrite Hk in Eh. discriminate Eh.
Defined.

End AppHistory.

Module AppEditing.

Import Types App.
Local Open Scope string_scope.

Lemma dataUrlOf_cut (b : Gemini.Blob) :
  JS.noComma (JS.interpolate (Gemini.blob_mimeType b)) = true ->
  JS.cut "base64," (Gemini.dataUrlOf b)
  = Some ("data:" ++ JS.interpolate (Gemini.blob_mimeType b) ++ ";",
          JS.interpolate (Gemini.blob_data b)).
Proof.
  intros Hn. unfold Gemini.dataUrlOf.
  set (mime := JS.interpolate (Gemini.blob_mimeType b)) in *.
  set (d := JS.interpolate (Gemini.blob_data b)).
  replace ("data:" ++ mime ++ ";base64," ++ d)
    with (("data:" ++ mime ++ ";") ++ "base64," ++ d).
  - apply JSCuts.cut_base64.
    change ("data:" ++ mime ++ ";") with ("data:" ++ (mime ++ ";")).
    rewrite !JSCuts.noComma_app, Hn. reflexivity.
  - change ("data:" ++ mime ++ ";") with ("data:" ++ (mime ++ ";")).
    rewrite !JSCuts.append_assoc. reflexivity.
Qed.

Lemma cleanBase64_dataUrlOf (b : Gemini.Blob) (label : string) :
  JS.noComma (JS.interpolate (Gemini.blob_mimeType b)) = true ->
  JS.noComma (JS.interpolate (Gemini.blob_data b)) = true ->
  Gemini.cleanBase64 {| data := Gemini.dataUrlOf b; mimeType := label |}
  = JS.interpolate (Gemini.blob_data b).
Proof.
  intros Hm Hd. unfold Gemini.cleanBase64, JS.split_1. cbn [data].
  rewrite (dataUrlOf_cut b Hm).
  now rewrite (JSCuts.cut_base64_none _ Hd).
Qed.

(** X19.  The data URL under which the client hands back an image is
    read back faithfully by the rest of the application: stripping the
    header for the next request gives the service's base64 data again,
    and restoring it from the history gives the media type the service
    declared.  The media type must not be empty nor hold [';'] or [','],
    and the data no [','] (base64 text never does). *)
Theorem result_data_url_reads_back :
  forall (b : Gemini.Blob) (label : string),
    let mime := JS.interpolate (Gemini.blob_mimeType b) in
    let d := JS.interpolate (Gemini.blob_data b) in
    mime <> "" -> JS.noSemicolon mime = true -> JS.noComma mime = true ->
    JS.noComma d = true ->
    Gemini.cleanBase64 {| data := Gemini.dataUrlOf b; mimeType := label |} = d
    /\ NanoBanana.restoreImage (Gemini.dataUrlOf b)
       = {| data := Gemini.dataUrlOf b; mimeType := mime |}.
Proof.
  intros b label mime d Hne Hsemi Hcomma Hd. split.
  - now apply cleanBase64_dataUrlOf.
  - unfold NanoBanana.restoreImage.
    change (Gemini.dataUrlOf b) with ("data:" ++ mime ++ ";" ++ "base64," ++ d).
    now rewrite (JSFacts.matchDataTag_dataUrl mime ("base64," ++ d) Hne Hsemi).
Qed.

Lemma result_data_url_reads_back_witness :
  let b := {| Gemini.blob_mimeType := Some "image/webp";
              Gemini.blob_data := Some "UklGRg==" |} in
  Gemini.cleanBase64 {| data := Gemini.dataUrlOf b; mimeType := "image/png" |}
  = "UklGRg=="
  /\ mimeType (NanoBanana.restoreImage (Gemini.dataUrlOf b)) = "image/webp".
Proof.
  intros b.
  assert (Hne : JS.interpolate (Gemini.blob_mimeType b) <> "") by discriminate.
  destruct (result_data_url_reads_back b "image/png" Hne eq_refl eq_refl eq_refl)
    as [Hc Hr].
  split; [exact Hc | now rewrite Hr].
Defined.

(** X20.  Using the result as a reference (Nano Banana revision) moves
    the displayed image to the end of the source images, labelled
    "image/png" whatever type its data URL declares, and clears the
    display; the next submit then sends the earlier images, then the
    result's own base64 data labelled "image/png", then the prompt as
    typed.  With nothing displayed the action does nothing. *)
Theorem use_as_reference_then_generate :
  forall (s : State) (b : Gemini.Blob),
    generatedImage s = Some (Gemini.dataUrlOf b) ->
    blank (prompt s) = false ->
    JS.noComma (JS.interpolate (Gemini.blob_mimeType b)) = true ->
    JS.noComma (JS.interpolate (Gemini.blob_data b)) = true ->
    let s' := NanoBanana.handleUseAsReference s in
    sourceImages s'
    = (sourceImages s
       ++ [{| data := Gemini.dataUrlOf b; mimeType := "image/png" |}])%list
    /\ generatedImage s' = None
    /\ exists p,
        snd (NanoBanana.handleGenerate s') = Some p
        /\ Gemini.parts (request p)
           = (map (fun img => Gemini.InlinePart (Gemini.cleanBase64 img)
                                                (mimeType img))
                  (sourceImages s)
              ++ [Gemini.InlinePart (JS.interpolate (Gemini.blob_data b))
                                    "image/png";
                  Gemini.TextPart (prompt s)])%list.
Proof.
  intros s b Hg Hb Hm Hd s'. unfold s', NanoBanana.handleUseAsReference.
  rewrite Hg. cbn [sourceImages generatedImage setGeneratedImage setSourceImages].
  split; [reflexivity|]. split; [reflexivity|].
  unfold NanoBanana.handleGenerate.
  cbn [prompt setGeneratedImage setSourceImages]. rewrite Hb.
  eexists. split; [reflexivity|].
  cbn [request Gemini.parts Gemini.NanoBanana.buildRequest fst
       Gemini.NanoBanana.generateOrEditImage].
  unfold Gemini.requestParts, Gemini.imageParts, Gemini.finalPrompt,
    Gemini.noSourceImages.
  cbn [Gemini.sourceImages Gemini.prompt sourceImages prompt
       setGeneratedImage setSourceImages setError setIsLoading].
  rewrite length_app, Nat.add_comm. cbn [List.length Nat.add Nat.eqb].
  rewrite map_app. cbn [map mimeType].
  rewrite (cleanBase64_dataUrlOf b "image/png" Hm Hd).
  now rewrite <- app_assoc.
Qed.

Lemma use_as_reference_then_generate_witness :
  let b := {| Gemini.blob_mimeType := Some "image/jpeg";
              Gemini.blob_data := Some "AAAA" |} in
  let s := setGeneratedImage (Some (Gemini.dataUrlOf b))
                             (setPrompt "add a hat" initial) in
  sourceImages (NanoBanana.handleUseAsReference s)
  = [{| data := "data:image/jpeg;base64,AAAA"; mimeType := "image/png" |}].
Proof.
  intros b s.
  exact (proj1 (use_as_reference_then_generate s b eq_refl eq_refl eq_refl eq_refl)).
Defined.

Lemma applyCommits_last (commits : list (list ImageState)) :
  forall (final : list ImageState) (s : State),
    sourceImages (applyCommits (commits ++ [final]) s) = final.
Proof.
  intros final s. unfold applyCommits. now rewrite fold_left_app.
Qed.

(** X21.  A batch commits the list it captured when it was started plus
    its own images.  So when two batches are started on the same list
    (the second before the first has committed) and the second has a
    valid image, the list after both commits is the captured list
    followed by the second batch's images only: what the first batch
    committed is replaced. *)
Theorem later_batch_replaces_the_earlier :
  forall (files1 files2 : list DragDropZone.File)
         (captured : list ImageState) (done1 done2 : list nat) (s : State),
    DragDropZone.Schedule files1 done1 ->
    DragDropZone.Schedule files2 done2 ->
    done2 <> [] ->
    let b1 := DragDropZone.processFiles_nano files1 captured done1 in
    let b2 := DragDropZone.processFiles_nano files2 captured done2 in
    DragDropZone.processFiles_wasti files1 captured done1 = b1
    /\ DragDropZone.processFiles_wasti files2 captured done2 = b2
    /\ sourceImages
         (applyCommits (DragDropZone.committed b1 ++ DragDropZone.committed b2) s)
       = (captured ++ DragDropZone.imagesAt files2 done2)%list.
Proof.
  intros files1 files2 captured done1 done2 s H1 H2 Hne b1 b2.
  assert (E1 : DragDropZone.processFiles_wasti files1 captured done1 = b1)
    by (symmetry; apply IngestionFacts.processFiles_revisions_agree).
  assert (E2 : DragDropZone.processFiles_wasti files2 captured done2 = b2)
    by (symmetry; apply IngestionFacts.processFiles_revisions_agree).
  split; [exact E1|]. split; [exact E2|].
  rewrite <- E2, (IngestionFacts.processFiles_wasti_spec _ captured _ H2).
  destruct done2 as [|i rest]; [congruence|].
  cbn [DragDropZone.committed]. apply applyCommits_last.
Qed.

Lemma later_batch_replaces_the_earlier_witness :
  let a := {| DragDropZone.type := "image/png";
              DragDropZone.result := "data:image/png;base64,AAAA" |} in
  let b := {| DragDropZone.type := "image/gif";
              DragDropZone.result := "data:image/gif;base64,BBBB" |} in
  sourceImages
    (applyCommits
       (DragDropZone.committed (DragDropZone.processFiles_nano [a] [] [0%nat])
        ++ DragDropZone.committed (DragDropZone.processFiles_nano [b] [] [0%nat]))
       initial)
  = ([] ++ DragDropZone.imagesAt [b] [0%nat])%list.
Proof.
  intros a b.
  assert (Ha : DragDropZone.Schedule [a] [0%nat]) by apply Permutation_refl.
  assert (Hb : DragDropZone.Schedule [b] [0%nat]) by apply Permutation_refl.
  assert (Hne : [0%nat] <> []) by discriminate.
  exact (proj2 (proj2 (later_batch_replaces_the_earlier [a] [b] [] _ _ initial
                         Ha Hb Hne))).
Defined.

End AppEditing.
